(** * sslkeylog.py: extraction of TLS key material under gdb

    A shallow embedding of [gdb/sslkeylog.py].  The script runs inside gdb's
    Python interpreter: breakpoints on five OpenSSL entry points arm a finish
    breakpoint, which reads the client random and the master key out of the
    inferior and appends them to a key log file.

    Python exceptions are modelled by the [result] type, module globals and
    the objects they alias by an explicit [state] threaded through a small
    state-and-exception monad. *)

From Stdlib Require Import Ascii Strings.Byte.
From stdpp Require Import gmap strings list fin_maps pretty.

Open Scope string_scope.
Open Scope Z_scope.

(** ** Exceptions *)

Inductive exn :=
  | MemoryError                 (* gdb.MemoryError: unreadable inferior memory *)
  | GdbError                    (* gdb.error: e.g. no such struct member *)
  | OSError (errno : Z)
  | ValueError                  (* I/O operation on closed file *)
  | RuntimeError                (* gdb: the breakpoint is invalid (deleted) *)
  | TypeError
  | NameError
  | AttributeError
  | UnicodeEncodeError
  | Dangling.                   (* a reference outside the object store; Python
                                   has none, so no run of the script raises it *)

Inductive result (A : Type) :=
  | Return (a : A)
  | Raise (e : exn).
Arguments Return {A} a.
Arguments Raise {A} e.

#[global] Instance result_ret : MRet result := λ A a, Return a.
#[global] Instance result_bind : MBind result := λ A B k r,
  match r with
  | Return a => k a
  | Raise e => Raise e
  end.

(** [errno.ESPIPE] *)
Definition ESPIPE : Z := 29.

(** ** Formatting *)

(** One digit of ['%X']. *)
Definition hex_digit (d : N) : ascii :=
  if (d <? 10)%N then ascii_of_N (48 + d) else ascii_of_N (55 + d).

(** ['%02X' % ord(x)] for a byte [x] of the buffer. *)
Definition fmt_02X (x : byte) : string :=
  let n := Byte.to_N x in
  String (hex_digit (n / 16)) (String (hex_digit (n mod 16)) EmptyString).

(** [''.join('%02X' % ord(x) for x in data)] *)
Fixpoint hex_join (data : list byte) : string :=
  match data with
  | [] => ""
  | x :: rest => fmt_02X x +:+ hex_join rest
  end.

(** [%d] applied to a non-negative integer. *)
Definition fmt_d (n : nat) : string := pretty n.

Definition is_upper_hex (c : ascii) : bool :=
  let n := N_of_ascii c in
  ((48 <=? n) && (n <=? 57) || (65 <=? n) && (n <=? 70))%N.

Fixpoint string_forallb (p : ascii → bool) (s : string) : bool :=
  match s with
  | EmptyString => true
  | String c rest => p c && string_forallb p rest
  end.

Definition is_ascii_char (c : ascii) : bool := (N_of_ascii c <? 128)%N.

(** [s.encode('ascii')]: one byte per character, [UnicodeEncodeError] on a
    code point above 127. *)
Fixpoint encode_ascii (s : string) : result (list byte) :=
  match s with
  | EmptyString => Return []
  | String c rest =>
      if is_ascii_char c
      then (bs ← encode_ascii rest; Return (byte_of_ascii c :: bs))
      else Raise UnicodeEncodeError
  end.

(** ** The inferior, as gdb shows it to Python *)

(** [gdb.selected_inferior()]: the bytes of the stopped process; [None] at an
    address that cannot be read. *)
Definition inferior := Z → option byte.

(** [Inferior.read_memory(addr, size)]: [size] bytes from [addr] upwards,
    [gdb.MemoryError] when one of them cannot be read. *)
Fixpoint read_memory (mem : inferior) (addr : Z) (size : nat) : result (list byte) :=
  match size with
  | O => Return []
  | S n =>
      match mem addr with
      | None => Raise MemoryError
      | Some b => (rest ← read_memory mem (addr + 1) n; Return (b :: rest))
      end
  end.

(** A lazy [gdb.Value]: [fetch] is what comparing the value with a Python
    integer yields (the read of the scalar may fail), [address] is
    [Value.address], and [members] are the values [v[name]] of the struct (or
    of the struct pointed to, which gdb dereferences on member access). *)
#[warnings="-register-all"]
Inductive Value :=
  | Val (fetch : result Z) (address : Z) (members : list (string * Value)).

Definition fetch (v : Value) : result Z := let 'Val f _ _ := v in f.
Definition address (v : Value) : Z := let 'Val _ a _ := v in a.
Definition members (v : Value) : list (string * Value) := let 'Val _ _ m := v in m.

Fixpoint assoc {A} (name : string) (l : list (string * A)) : option A :=
  match l with
  | [] => None
  | (k, v) :: rest => if String.eqb k name then Some v else assoc name rest
  end.

(** [v[name]] *)
Definition getitem (v : Value) (name : string) : result Value :=
  match assoc name (members v) with
  | Some f => Return f
  | None => Raise GdbError
  end.

(** ** Key extraction *)

Definition _read_as_hex (mem : inferior) (value : Value) (size : nat) : result string :=
  (let addr := address value in
   data ← read_memory mem addr size;
   Return (hex_join data)).

Definition _ssl_get_master_key (mem : inferior) (ssl_ptr : Value) : result (option string) :=
  (session ← getitem ssl_ptr "session";
   session_val ← fetch session;
   if bool_decide (session_val ≠ 0) then
     mkl ← getitem session "master_key_length";
     len ← fetch mkl;
     if bool_decide (len > 0) then
       master_key ← getitem session "master_key";
       h ← _read_as_hex mem master_key 48;
       Return (Some h)
     else Return None
   else Return None).

(** Returns [(client_random, master_key)] for the current SSL session, or
    [None]. *)
Definition get_keylog_line (mem : inferior) (ssl_ptr : Value)
  : result (option (string * string)) :=
  (mk ← _ssl_get_master_key mem ssl_ptr;
   s3 ← getitem ssl_ptr "s3";
   s3_val ← fetch s3;
   if bool_decide (s3_val = 0) then Return None
   else match mk with
   | None => Return None
   | Some mk =>
       client_random ← getitem s3 "client_random";
       cr ← _read_as_hex mem client_random 32;
       Return (Some (cr, mk))
   end).

(** ** Files *)

(** What the operating system holds under a path: the bytes stored in the
    file (or already sent down the pipe), whether the descriptor can seek,
    and the errno with which [open] fails in append and in write mode. *)
Record node := Node {
  content : list byte;
  seekable : bool;
  append_errno : option Z;
  write_errno : option Z;
}.

Definition new_file : node :=
  {| content := []; seekable := true; append_errno := None; write_errno := None |}.

(** An unbuffered binary file object, as returned by [open(filename, mode, 0)]. *)
Record FileIO := {
  name : string;
  closed : bool;
}.

Inductive mode := ab | wb.

(** Listens for new key material and writes them to a file. *)
Record Keylog := {
  keylog_file : FileIO;
  (* Remember written lines to avoid printing duplicates. *)
  written_items : gset string;
}.

(** ** Breakpoints *)

(** Breaks at function entrance and registers a finish breakpoint.  The
    object is referred to by its gdb breakpoint [number]. *)
Record SKLBreakpoint := {
  number : nat;
  location : string;
  hit_count : nat;
  ignore_count : nat;
  bp_key_listener : option nat;
}.

(** Breaks on points where new key material is possibly available. *)
Record SKLFinishBreakpoint := {
  ssl_ptr : Value;
  key_listener : option nat;
}.

(** ** Interpreter state *)

Record state := State {
  fs : gmap string node;                       (* the file system *)
  heap : list Keylog;                        (* Keylog objects, by reference *)
  breakpoints : list SKLBreakpoint;            (* gdb's table of live breakpoints *)
  next_number : nat;                           (* next breakpoint number *)
  finish_breakpoints : list SKLFinishBreakpoint; (* armed finish breakpoints *)
  selected_thread : bool;                      (* gdb.selected_thread() is not None *)
  executed : list string;                      (* commands passed to gdb.execute *)
  stdout : list string;                        (* lines printed *)
  keylog_filename : string;                    (* module global *)
  _keylog_file : option nat;                   (* module global: a shared Keylog *)
  _locations : list (string * option nat);     (* module global: enabled breakpoints *)
}.

Definition set_fs (v : gmap string node) (st : state) : state :=
  State v (heap st) (breakpoints st) (next_number st) (finish_breakpoints st)
    (selected_thread st) (executed st) (stdout st) (keylog_filename st)
    (_keylog_file st) (_locations st).
Definition set_heap (v : list Keylog) (st : state) : state :=
  State (fs st) v (breakpoints st) (next_number st) (finish_breakpoints st)
    (selected_thread st) (executed st) (stdout st) (keylog_filename st)
    (_keylog_file st) (_locations st).
Definition set_breakpoints (v : list SKLBreakpoint) (st : state) : state :=
  State (fs st) (heap st) v (next_number st) (finish_breakpoints st)
    (selected_thread st) (executed st) (stdout st) (keylog_filename st)
    (_keylog_file st) (_locations st).
Definition set_next_number (v : nat) (st : state) : state :=
  State (fs st) (heap st) (breakpoints st) v (finish_breakpoints st)
    (selected_thread st) (executed st) (stdout st) (keylog_filename st)
    (_keylog_file st) (_locations st).
Definition set_finish_breakpoints (v : list SKLFinishBreakpoint) (st : state) : state :=
  State (fs st) (heap st) (breakpoints st) (next_number st) v
    (selected_thread st) (executed st) (stdout st) (keylog_filename st)
    (_keylog_file st) (_locations st).
Definition set_executed (v : list string) (st : state) : state :=
  State (fs st) (heap st) (breakpoints st) (next_number st) (finish_breakpoints st)
    (selected_thread st) v (stdout st) (keylog_filename st)
    (_keylog_file st) (_locations st).
Definition set_stdout (v : list string) (st : state) : state :=
  State (fs st) (heap st) (breakpoints st) (next_number st) (finish_breakpoints st)
    (selected_thread st) (executed st) v (keylog_filename st)
    (_keylog_file st) (_locations st).
Definition set_keylog_filename (v : string) (st : state) : state :=
  State (fs st) (heap st) (breakpoints st) (next_number st) (finish_breakpoints st)
    (selected_thread st) (executed st) (stdout st) v
    (_keylog_file st) (_locations st).
Definition set__keylog_file (v : option nat) (st : state) : state :=
  State (fs st) (heap st) (breakpoints st) (next_number st) (finish_breakpoints st)
    (selected_thread st) (executed st) (stdout st) (keylog_filename st)
    v (_locations st).
Definition set__locations (v : list (string * option nat)) (st : state) : state :=
  State (fs st) (heap st) (breakpoints st) (next_number st) (finish_breakpoints st)
    (selected_thread st) (executed st) (stdout st) (keylog_filename st)
    (_keylog_file st) v.

(** ** The monad of statements: state, and exceptions that keep the state *)

Definition M (A : Type) : Type := state → result A * state.

#[global] Instance M_ret : MRet M := λ A a st, (Return a, st).
#[global] Instance M_bind : MBind M := λ A B k m st,
  match m st with
  | (Return a, st') => k a st'
  | (Raise e, st') => (Raise e, st')
  end.

Definition raise {A} (e : exn) : M A := λ st, (Raise e, st).
Definition gets {A} (f : state → A) : M A := λ st, (Return (f st), st).
Definition modify (f : state → state) : M unit := λ st, (Return (), f st).
Definition lift {A} (r : result A) : M A := λ st, (r, st).

(** [print(msg)] *)
Definition print (msg : string) : M unit :=
  modify (λ st, set_stdout (stdout st ++ [msg]) st).

(** [try: body except: handler] *)
Definition try_except {A} (body : M A) (handler : exn → M A) : M A := λ st,
  match body st with
  | (Raise e, st') => handler e st'
  | r => r
  end.

(** ** File operations *)

Definition node_of (files : gmap string node) (filename : string) : node :=
  default new_file (files !! filename).

Definition truncate (n : node) : node :=
  if seekable n
  then {| content := []; seekable := true;
          append_errno := append_errno n; write_errno := write_errno n |}
  else n.

Definition append_bytes (data : list byte) (n : node) : node :=
  {| content := content n ++ data; seekable := seekable n;
     append_errno := append_errno n; write_errno := write_errno n |}.

(** [open(filename, 'ab', 0)] and [open(filename, 'wb', 0)]: a missing file
    is created, write mode truncates. *)
Definition open_ (filename : string) (m : mode) : M FileIO := λ st,
  let f := {| name := filename; closed := false |} in
  match fs st !! filename with
  | None => (Return f, set_fs (<[filename := new_file]> (fs st)) st)
  | Some n =>
      match m with
      | ab =>
          match append_errno n with
          | Some e => (Raise (OSError e), st)
          | None => (Return f, st)
          end
      | wb =>
          match write_errno n with
          | Some e => (Raise (OSError e), st)
          | None => (Return f, set_fs (<[filename := truncate n]> (fs st)) st)
          end
      end
  end.

(** [f.tell()]: in append mode the position after [open] is the end of the
    file; a descriptor that cannot seek raises. *)
Definition tell (f : FileIO) : M nat := λ st,
  if closed f then (Raise ValueError, st)
  else
    let n := node_of (fs st) (name f) in
    if seekable n then (Return (length (content n)), st)
    else (Raise (OSError ESPIPE), st).

(** [f.write(data)] on an unbuffered file: the bytes reach the file at once. *)
Definition write (f : FileIO) (data : list byte) : M nat := λ st,
  if closed f then (Raise ValueError, st)
  else (Return (length data),
        set_fs (<[name f := append_bytes data (node_of (fs st) (name f))]> (fs st)) st).

(** ** The object store *)

Definition deref (self : nat) : M Keylog := λ st,
  match heap st !! self with
  | Some k => (Return k, st)
  | None => (Raise Dangling, st)
  end.

Definition alloc (k : Keylog) : M nat := λ st,
  (Return (length (heap st)), set_heap (heap st ++ [k]) st).

(** ** Keylog *)

Definition nl : string := String (ascii_of_nat 10) "".

Definition _SSL_KEYLOG_HEADER : string :=
  "# Automatically generated by sslkeylog.py" +:+ nl.

Definition keylog_line (client_random master_key : string) : string :=
  "CLIENT_RANDOM " +:+ client_random +:+ " " +:+ master_key +:+ nl.

Module Keylog.

Definition __init__ (keylog_file : FileIO) : M nat :=
  alloc {| keylog_file := keylog_file; written_items := ∅ |}.

(** Puts a new entry in the key log if not already known. *)
Definition notify (self : nat) (client_random master_key : string) : M unit :=
  k ← deref self;
  if bool_decide (client_random ∉ written_items k) then
    let line := keylog_line client_random master_key in
    data ← lift (encode_ascii line);
    write (keylog_file k) data;;
    (* Assume client random is random enough as cache key. *)
    let cache_key := client_random in
    modify (λ st, set_heap
      (<[self := {| keylog_file := keylog_file k;
                    written_items := {[cache_key]} ∪ written_items k |}]> (heap st)) st)
  else mret ().

(** [def close():] takes no parameter, not even [self]: the call
    [obj.close()] passes one argument and is rejected before the body runs;
    the body itself names an unbound [self]. *)
Definition close (args : list nat) : M unit :=
  match args with
  | [] => raise NameError
  | _ :: _ => raise TypeError
  end.

Definition needs_header (f : FileIO) : M bool :=
  try_except
    (* Might fail for pipes (such as stdin). *)
    (pos ← tell f; mret (bool_decide (pos = 0%nat)))
    (λ _, mret false).

(** The [try: ... except OSError] block of [create] that opens the file. *)
Definition open_log (filename : string) : M FileIO :=
  (* Byte output is needed for unbuffered I/O *)
  try_except (open_ filename ab)
    (λ e,
       (* Older gdb try to seek when append is requested. If seeking is
          not possible (for stderr or pipes), use plain write mode. *)
       match e with
       | OSError errno =>
           if bool_decide (errno = ESPIPE) then open_ filename wb else raise e
       | _ => raise e
       end).

Definition create (filename : string) : M nat :=
  f ← open_log filename;
  b ← needs_header f;
  (if (b : bool) then
     data ← lift (encode_ascii _SSL_KEYLOG_HEADER);
     write f data;; mret ()
   else mret () : M unit);;
  __init__ f.

End Keylog.

(** ** Breakpoint classes *)

Fixpoint find_breakpoint (n : nat) (table : list SKLBreakpoint) : option SKLBreakpoint :=
  match table with
  | [] => None
  | b :: rest => if bool_decide (number b = n) then Some b else find_breakpoint n rest
  end.

(** Attribute access on a breakpoint object: gdb raises once the breakpoint
    has been deleted. *)
Definition breakpoint_of (n : nat) : M SKLBreakpoint := λ st,
  match find_breakpoint n (breakpoints st) with
  | Some b => (Return b, st)
  | None => (Raise RuntimeError, st)
  end.

(** [breakpoint.delete()] *)
Definition delete (n : nat) : M unit :=
  modify (λ st, set_breakpoints
    (filter (λ b, number b ≠ n) (breakpoints st)) st).

Module SKLFinishBreakpoint.

Definition __init__ (ssl_ptr : Value) (key_listener : option nat) : M unit :=
  modify (λ st, set_finish_breakpoints
    (finish_breakpoints st ++ [{| ssl_ptr := ssl_ptr; key_listener := key_listener |}]) st).

Definition stop (mem : inferior) (self : SKLFinishBreakpoint) : M bool :=
  (* Attempt to recover key material. *)
  info ← lift (get_keylog_line mem (ssl_ptr self));
  match info with
  | Some (client_random, master_key) =>
      (* Line consists of a cache key and actual key log line *)
      match key_listener self with
      | Some k => Keylog.notify k client_random master_key
      | None => raise AttributeError
      end
  | None => mret ()
  end;;
  mret false. (* Continue execution *)

End SKLFinishBreakpoint.

Module SKLBreakpoint.

(** [gdb.Breakpoint.__init__(self, spec)] enters the breakpoint in gdb's
    table under the next number. *)
Definition __init__ (spec : string) (key_listener : option nat) : M nat := λ st,
  let n := next_number st in
  let b := {| number := n; location := spec; hit_count := 0; ignore_count := 0;
              bp_key_listener := key_listener |} in
  (Return n, set_next_number (S n) (set_breakpoints (breakpoints st ++ [b]) st)).

Definition bump_ignore_count (n : nat) (b : SKLBreakpoint) : SKLBreakpoint :=
  if bool_decide (number b = n)
  then {| number := number b; location := location b; hit_count := hit_count b;
          ignore_count := S (ignore_count b); bp_key_listener := bp_key_listener b |}
  else b.

(** [read_var] is the outcome of [gdb.selected_frame().read_var('s')]. *)
Definition stop (read_var : result Value) (self : nat) : M bool :=
  (* Retrieve SSL* parameter. *)
  ssl_ptr ← lift read_var;
  (* Proceed with handshakes (finish function) before checking for keys. *)
  b ← breakpoint_of self;
  SKLFinishBreakpoint.__init__ ssl_ptr (bp_key_listener b);;
  (* Increase hit count for debugging (info breakpoints) *)
  modify (λ st, set_breakpoints (bump_ignore_count self <$> breakpoints st) st);;
  mret false. (* Continue execution *)

End SKLBreakpoint.

(** ** Session control *)

(** [d[name] = v] on a dict kept in insertion order. *)
Fixpoint dict_set {A} (name : string) (v : A) (d : list (string * A)) : list (string * A) :=
  match d with
  | [] => [(name, v)]
  | (k, x) :: rest =>
      if String.eqb k name then (k, v) :: rest else (k, x) :: dict_set name v rest
  end.

Definition symbols : list string :=
  ["SSL_connect"; "SSL_do_handshake"; "SSL_accept"; "SSL_read"; "SSL_write"].

(** [gdb.execute(command)] *)
Definition gdb_execute (command : string) : M unit :=
  modify (λ st, set_executed (executed st ++ [command]) st).

(** The body of the [for] loop of [enable], over the items of [_locations]. *)
Fixpoint enable_loop (items : list (string * option nat)) : M unit :=
  match items with
  | [] => mret ()
  | (name, breakpoint) :: rest =>
      match breakpoint with
      | Some _ =>
          print ("Breakpoint for " +:+ name +:+ " is already active, ignoring")
      | None =>
          listener ← gets _keylog_file;
          b ← SKLBreakpoint.__init__ name listener;
          modify (λ st, set__locations (dict_set name (Some b) (_locations st)) st)
      end;;
      enable_loop rest
  end.

(** Enable all SSL-related breakpoints. *)
Definition enable : M unit :=
  current ← gets _keylog_file;
  match current with
  | None =>
      filename ← gets keylog_filename;
      k ← Keylog.create filename;
      modify (set__keylog_file (Some k));;
      print ("Started logging SSL keys to " +:+ filename)
  | Some _ => mret ()
  end;;
  items ← gets _locations;
  enable_loop items.

(** The body of the [for] loop of [disable]. *)
Fixpoint disable_loop (items : list (string * option nat)) : M unit :=
  match items with
  | [] => mret ()
  | (name, breakpoint) :: rest =>
      match breakpoint with
      | Some n =>
          b ← breakpoint_of n;
          let msg := "Deleting breakpoint " +:+ fmt_d (number b) in
          let msg := msg +:+ " (" +:+ location b +:+ ")" in
          let msg := if bool_decide (0 < hit_count b)%nat
                     then msg +:+ " (called " +:+ fmt_d (hit_count b) +:+ " times)"
                     else msg in
          print msg;;
          delete n;;
          modify (λ st, set__locations (dict_set name None (_locations st)) st)
      | None => mret ()
      end;;
      disable_loop rest
  end.

(** Disable all SSL-related breakpoints. *)
Definition disable : M unit :=
  items ← gets _locations;
  disable_loop items.

Definition start (sslkeylogfile : option string) (cont : bool) : M unit :=
  match sslkeylogfile with
  | Some path =>
      if bool_decide (path ≠ "") then modify (set_keylog_filename path) else mret ()
  | None => mret ()
  end;;
  enable;;
  (* Continue the process when it was already started before. *)
  thread ← gets selected_thread;
  if cont && (thread : bool) then gdb_execute "continue" else mret ().

(** ['Logged %d entries in total' % written_items]: [%d] wants a number and
    is given a set. *)
Definition logged_entries (items : gset string) : result string :=
  Raise TypeError.

(** Remove all breakpoints and close the key logfile. *)
Definition stop : M unit :=
  current ← gets _keylog_file;
  match current with
  | None => print "No active keylog session"
  | Some k =>
      disable;;
      Keylog.close [k];;
      obj ← deref k;
      msg ← lift (logged_entries (written_items obj));
      print msg;;
      modify (set__keylog_file None)
  end.

(** ** Module initialisation *)

(** [os.getenv(key, default)] *)
Definition getenv (environ : gmap string string) (key fallback : string) : string :=
  default fallback (environ !! key).

(** The state after [import sslkeylog], in a process with environment
    [environ], over the file system [files]. *)
Definition init (environ : gmap string string) (files : gmap string node)
    (thread : bool) : state :=
  {| fs := files; heap := []; breakpoints := []; next_number := 1;
     finish_breakpoints := []; selected_thread := thread; executed := [];
     stdout := [];
     keylog_filename := getenv environ "SSLKEYLOGFILE" "keys.log";
     _keylog_file := None;
     _locations := (λ name, (name, None)) <$> symbols |}.

(** ** Observations *)

(** The bytes of the file behind a Keylog object. *)
Definition log_of (k : Keylog) (st : state) : list byte :=
  content (node_of (fs st) (name (keylog_file k))).

(** The state once the Keylog [k] stored at [self] has logged the pair
    [(cr, mk)]: one line more in its file, one fingerprint more in its set. *)
Definition logged (self : nat) (k : Keylog) (cr mk : string) (st : state) : state :=
  let f := keylog_file k in
  let data := String.list_byte_of_string (keylog_line cr mk) in
  let st1 := set_fs (<[name f := append_bytes data (node_of (fs st) (name f))]> (fs st)) st in
  set_heap (<[self := {| keylog_file := f;
                         written_items := {[cr]} ∪ written_items k |}]> (heap st1)) st1.

(** [n] calls of the same statement in a row. *)
Fixpoint repeat_call (n : nat) (m : M unit) : M unit :=
  match n with
  | O => mret ()
  | S n => m;; repeat_call n m
  end.

(** [notify(cr, mk)] for each master key [mk] of a list, in order. *)
Fixpoint notify_each (self : nat) (cr : string) (mks : list string) : M unit :=
  match mks with
  | [] => mret ()
  | mk :: rest => Keylog.notify self cr mk;; notify_each self cr rest
  end.

(** The bytes of the header line. *)
Definition header_bytes : list byte := String.list_byte_of_string _SSL_KEYLOG_HEADER.

(** The bytes the operating system holds under a path. *)
Definition file_content (filename : string) (st : state) : list byte :=
  content (node_of (fs st) filename).

(** The file object of a successful [open]. *)
Definition opened (filename : string) : FileIO := {| name := filename; closed := false |}.

(** The message of [enable] for a symbol that is already watched. *)
Definition already_active (name : string) : string :=
  "Breakpoint for " +:+ name +:+ " is already active, ignoring".

(** The state after the iteration of [enable] that installs a breakpoint. *)
Definition install (name : string) (st : state) : state :=
  let n := next_number st in
  let b := {| number := n; location := name; hit_count := 0; ignore_count := 0;
              bp_key_listener := _keylog_file st |} in
  let st1 := set_next_number (S n) (set_breakpoints (breakpoints st ++ [b]) st) in
  set__locations (dict_set name (Some n) (_locations st1)) st1.

(** The message of [disable] for the breakpoint it deletes. *)
Definition deleting (b : SKLBreakpoint) : string :=
  let msg := "Deleting breakpoint " +:+ fmt_d (number b) in
  let msg := msg +:+ " (" +:+ location b +:+ ")" in
  if bool_decide (0 < hit_count b)%nat
  then msg +:+ " (called " +:+ fmt_d (hit_count b) +:+ " times)"
  else msg.

(** The state after the iteration of [disable] that deletes breakpoint [b],
    numbered [n], of symbol [name]. *)
Definition uninstall (name : string) (n : nat) (b : SKLBreakpoint) (st : state) : state :=
  let st1 := set_stdout (stdout st ++ [deleting b]) st in
  let st2 := set_breakpoints (filter (λ b, number b ≠ n) (breakpoints st1)) st1 in
  set__locations (dict_set name None (_locations st2)) st2.

(** Calls typed at the gdb prompt; an exception ends the call and leaves the
    state as it is at that point. *)
Inductive call := Enable | Disable.

Definition run_call (c : call) (st : state) : state :=
  match c with
  | Enable => (enable st).2
  | Disable => (disable st).2
  end.

Definition run_calls (cs : list call) (st : state) : state :=
  foldl (λ st c, run_call c st) st cs.

(** The active entry breakpoints of a symbol. *)
Definition watchers (name : string) (st : state) : list SKLBreakpoint :=
  filter (λ b, location b = name) (breakpoints st).

(** The watch set and gdb's breakpoint table describe each other. *)
Record watch_inv (st : state) : Prop := {
  inv_symbols : (_locations st).*1 = symbols;
  inv_numbers : NoDup (number <$> breakpoints st);
  inv_next : ∀ b, b ∈ breakpoints st → (number b < next_number st)%nat;
  inv_watched : ∀ name n, (name, Some n) ∈ _locations st →
                  ∃ b, b ∈ breakpoints st ∧ number b = n ∧ location b = name;
  inv_installed : ∀ b, b ∈ breakpoints st →
                    (location b, Some (number b)) ∈ _locations st;
  inv_session : breakpoints st ≠ [] → is_Some (_keylog_file st);
}.

(** ** Fixtures *)

(** A connection object as gdb presents it: the [SSL] struct with its
    [session] and [s3] pointers, the session's key length and the addresses
    of the two byte arrays.  Members behind a null pointer cannot be read. *)
Definition behind (pointer : Z) (v : Z) : result Z :=
  if bool_decide (pointer = 0) then Raise MemoryError else Return v.

Definition connection (session_val len master_key_addr s3_val client_random_addr : Z)
  : Value :=
  Val (Return 4096) 0
    [("session", Val (Return session_val) 4096
        [("master_key_length", Val (behind session_val len) (session_val + 8) []);
         ("master_key", Val (Raise GdbError) master_key_addr [])]);
     ("s3", Val (Return s3_val) 4104
        [("client_random", Val (Raise GdbError) client_random_addr [])])].

(** An inferior with 48 bytes [0xCD] at 100 and 32 bytes [0xAB] at 200. *)
Definition ex_mem : inferior := λ a,
  if bool_decide (100 ≤ a < 148) then Some xcd
  else if bool_decide (200 ≤ a < 232) then Some xab else None.

Definition ex_ssl : Value := connection 92 48 100 192 200.

(** A Keylog over [keys.log] that has logged nothing yet, the same object
    once its file has been closed, and states that hold them at reference 0. *)
Definition ex_keylog : Keylog :=
  {| keylog_file := {| name := "keys.log"; closed := false |}; written_items := ∅ |}.

Definition ex_closed_keylog : Keylog :=
  {| keylog_file := {| name := "keys.log"; closed := true |}; written_items := ∅ |}.

Definition ex_state : state :=
  set__keylog_file (Some 0%nat) (set_heap [ex_keylog] (init ∅ ∅ true)).

Definition ex_closed_state : state :=
  set__keylog_file (Some 0%nat) (set_heap [ex_closed_keylog] (init ∅ ∅ true)).

Definition ex_cr : string := hex_join (replicate 32 xab).
Definition ex_mk : string := hex_join (replicate 48 xcd).

Definition ex_finish_breakpoint : SKLFinishBreakpoint :=
  {| ssl_ptr := ex_ssl; key_listener := Some 0%nat |}.

(** A path that cannot be opened: [open] fails with [EACCES]. *)
Definition ex_denied : node :=
  {| content := []; seekable := true; append_errno := Some 13; write_errno := Some 13 |}.

Definition ex_denied_state : state := init ∅ {[ "keys.log" := ex_denied ]} true.

(** ** Decoding of the hexadecimal rendering *)

Definition unhex_digit (c : ascii) : option N :=
  let n := N_of_ascii c in
  if ((48 <=? n) && (n <=? 57))%N then Some (n - 48)%N
  else if ((65 <=? n) && (n <=? 70))%N then Some (n - 55)%N
  else None.

(** The bytes that a string of two-character upper-case hex groups stands
    for. *)
Fixpoint unhex (s : string) : option (list byte) :=
  match s with
  | EmptyString => Some []
  | String _ EmptyString => None
  | String hi (String lo rest) =>
      match unhex_digit hi, unhex_digit lo, unhex rest with
      | Some h, Some l, Some data =>
          match Byte.of_N (16 * h + l) with
          | Some x => Some (x :: data)
          | None => None
          end
      | _, _, _ => None
      end
  end.

(** ** Events of a debugging session *)

(** gdb counts a hit of breakpoint [n] before it calls the [stop] method. *)
Definition count_hit (n : nat) (b : SKLBreakpoint) : SKLBreakpoint :=
  if bool_decide (number b = n)
  then {| number := number b; location := location b; hit_count := S (hit_count b);
          ignore_count := ignore_count b; bp_key_listener := bp_key_listener b |}
  else b.

(** What happens in a session: the four functions of the control surface
    called at the prompt, the inferior reaching the entry breakpoint numbered
    [n] (with the outcome of reading the parameter [s] in that frame), and
    the call behind the [i]-th armed finish breakpoint returning (with the
    memory of the inferior at that moment). *)
Inductive event :=
  | CallStart (sslkeylogfile : option string) (cont : bool)
  | CallStop
  | CallEnable
  | CallDisable
  | Hit (n : nat) (read_var : result Value)
  | Finish (i : nat) (mem : inferior).

(** An exception ends the handler and leaves the state as it is at that
    point.  gdb calls [stop] only on a breakpoint of its table, and a finish
    breakpoint is gone once it has fired. *)
Definition run_event (e : event) (st : state) : state :=
  match e with
  | CallStart sslkeylogfile cont => (start sslkeylogfile cont st).2
  | CallStop => (stop st).2
  | CallEnable => (enable st).2
  | CallDisable => (disable st).2
  | Hit n read_var =>
      match find_breakpoint n (breakpoints st) with
      | Some _ =>
          (SKLBreakpoint.stop read_var n
             (set_breakpoints (count_hit n <$> breakpoints st) st)).2
      | None => st
      end
  | Finish i mem =>
      match finish_breakpoints st !! i with
      | Some fb =>
          let st1 := (SKLFinishBreakpoint.stop mem fb st).2 in
          set_finish_breakpoints (base.delete i (finish_breakpoints st1)) st1
      | None => st
      end
  end.

Definition run_events (es : list event) (st : state) : state :=
  foldl (λ st e, run_event e st) st es.

(** The bytes of the lines for a list of pairs [(client_random, master_key)]. *)
Definition log_lines (entries : list (string * string)) : list byte :=
  concat ((λ e, String.list_byte_of_string (keylog_line e.1 e.2)) <$> entries).

(** A string that renders [n] bytes. *)
Definition hex_of_size (n : nat) (s : string) : Prop :=
  ∃ data, length data = n ∧ s = hex_join data.

(** A session has at most one Keylog, at reference 0, and every breakpoint
    listens to it. *)
Record session_inv (st : state) : Prop := {
  s_watch : watch_inv st;
  s_single : match _keylog_file st with
             | None => length (heap st) = 0%nat
             | Some r => r = 0%nat ∧ length (heap st) = 1%nat
             end;
  s_listeners : ∀ b, b ∈ breakpoints st → bp_key_listener b = Some 0%nat;
  s_finish : ∀ fb, fb ∈ finish_breakpoints st →
               key_listener fb = Some 0%nat ∧ _keylog_file st = Some 0%nat;
}.

(** The log of a session over a file system that was empty at the start: the
    header, then one well-formed line per recorded client random. *)
Definition log_inv (st : state) : Prop :=
  match _keylog_file st with
  | None => fs st = ∅
  | Some r =>
      ∃ k entries,
        heap st !! r = Some k ∧
        closed (keylog_file k) = false ∧
        file_content (name (keylog_file k)) st = (header_bytes ++ log_lines entries)%list ∧
        (∀ other, other ≠ name (keylog_file k) → fs st !! other = None) ∧
        NoDup entries.*1 ∧
        written_items k = list_to_set entries.*1 ∧
        Forall (λ e, hex_of_size 32 e.1 ∧ hex_of_size 48 e.2) entries
  end.

(** Finish breakpoints firing one after the other, each with the memory of
    the inferior at its return. *)
Fixpoint stop_each (fires : list (inferior * SKLFinishBreakpoint)) : M unit :=
  match fires with
  | [] => mret ()
  | (mem, fb) :: rest => SKLFinishBreakpoint.stop mem fb;; stop_each rest
  end.

(** The session of [start()] on an empty file system, with the attached
    process alive. *)
Definition ex_running : state := (start None true (init ∅ ∅ true)).2.

(** A second connection: 48 bytes [0x11] at 300 and 32 bytes [0x22] at 400. *)
Definition ex_mem2 : inferior := λ a,
  if bool_decide (300 ≤ a < 348) then Some x11
  else if bool_decide (400 ≤ a < 432) then Some x22 else None.

Definition ex_ssl2 : Value := connection 292 48 300 392 400.

Definition ex_cr2 : string := hex_join (replicate 32 x22).
Definition ex_mk2 : string := hex_join (replicate 48 x11).

Definition ex_read_breakpoint : SKLBreakpoint :=
  {| number := 4; location := "SSL_read"; hit_count := 0; ignore_count := 0;
     bp_key_listener := Some 0%nat |}.

Definition ex_write_breakpoint : SKLBreakpoint :=
  {| number := 5; location := "SSL_write"; hit_count := 0; ignore_count := 0;
     bp_key_listener := Some 0%nat |}.


(** * Properties *)

(** ** Formatting lemmas *)

Lemma string_forallb_app p s1 s2 :
  string_forallb p (s1 +:+ s2) = string_forallb p s1 && string_forallb p s2.
Proof.
  induction s1 as [|c s1 IH]; simpl; [done|].
  by rewrite IH, andb_assoc.
Qed.

Lemma length_app_string s1 s2 :
  String.length (s1 +:+ s2) = (String.length s1 + String.length s2)%nat.
Proof. induction s1 as [|c s1 IH]; simpl; [done|]. by rewrite IH. Qed.

Lemma fmt_02X_upper x : string_forallb is_upper_hex (fmt_02X x) = true.
Proof. by destruct x. Qed.

Lemma hex_join_length data :
  String.length (hex_join data) = (2 * length data)%nat.
Proof.
  induction data as [|x data IH]; [done|].
  cbn [hex_join length]. rewrite length_app_string, IH.
  unfold fmt_02X. simpl. lia.
Qed.

Lemma hex_join_upper data : string_forallb is_upper_hex (hex_join data) = true.
Proof.
  induction data as [|x data IH]; [done|].
  cbn [hex_join]. by rewrite string_forallb_app, fmt_02X_upper, IH.
Qed.

Lemma is_upper_hex_ascii c : is_upper_hex c = true → is_ascii_char c = true.
Proof.
  unfold is_upper_hex, is_ascii_char.
  rewrite orb_true_iff, !andb_true_iff, !N.leb_le, N.ltb_lt. lia.
Qed.

Lemma string_forallb_impl (p q : ascii → bool) s :
  (∀ c, p c = true → q c = true) →
  string_forallb p s = true → string_forallb q s = true.
Proof.
  intros Hpq. induction s as [|c s IH]; simpl; [done|].
  rewrite !andb_true_iff. intros [??]. auto.
Qed.

Lemma hex_join_ascii data : string_forallb is_ascii_char (hex_join data) = true.
Proof.
  eapply string_forallb_impl; [apply is_upper_hex_ascii | apply hex_join_upper].
Qed.

(** On a string of ASCII characters [encode] succeeds, with the bytes of the
    string. *)
Lemma encode_ascii_ok s :
  string_forallb is_ascii_char s = true →
  encode_ascii s = Return (String.list_byte_of_string s).
Proof.
  unfold String.list_byte_of_string.
  induction s as [|c s IH]; simpl; [done|].
  rewrite andb_true_iff. intros [-> Hs]. by rewrite (IH Hs).
Qed.

Lemma keylog_line_ascii cr mk :
  string_forallb is_ascii_char cr = true →
  string_forallb is_ascii_char mk = true →
  string_forallb is_ascii_char (keylog_line cr mk) = true.
Proof.
  intros Hcr Hmk. unfold keylog_line.
  by rewrite !string_forallb_app, Hcr, Hmk.
Qed.

Lemma read_memory_length mem size : ∀ addr data,
  read_memory mem addr size = Return data → length data = size.
Proof.
  induction size as [|n IH]; simpl; intros addr data H.
  - by inversion H.
  - destruct (mem addr) as [b|]; [|done].
    destruct (read_memory mem (addr + 1) n) as [rest|e] eqn:Hrest; [|done].
    inversion H; subst. simpl. f_equal. eauto.
Qed.

(** ** Key extraction *)

Ltac run_result :=
  repeat (progress cbn [mbind mret result_bind result_ret] ||
          (case_bool_decide; try lia; try done)).

(** C1. Key extraction gating.  For a connection object whose [session] and
    [s3] pointers can be read: [get_keylog_line] returns [None] when the
    session pointer is null; returns [None] when the session is not null but
    its master key length is at most 0; returns [None] when the session has a
    positive key length (and its master key is readable) but [s3] is null; and
    when all three prerequisites hold it returns the pair of the 32 bytes of
    [s3.client_random] and the 48 bytes of [session.master_key], each written
    as upper-case hexadecimal. *)
Theorem get_keylog_line_gating (mem : inferior) (ssl session s3 : Value)
    (session_val s3_val : Z)
    (Hsession : getitem ssl "session" = Return session)
    (Hsession_val : fetch session = Return session_val)
    (Hs3 : getitem ssl "s3" = Return s3)
    (Hs3_val : fetch s3 = Return s3_val) :
  (session_val = 0 → get_keylog_line mem ssl = Return None) ∧
  (∀ mkl len,
     session_val ≠ 0 →
     getitem session "master_key_length" = Return mkl →
     fetch mkl = Return len →
     (len ≤ 0 → get_keylog_line mem ssl = Return None) ∧
     (∀ master_key mk,
        len > 0 →
        getitem session "master_key" = Return master_key →
        read_memory mem (address master_key) 48 = Return mk →
        (s3_val = 0 → get_keylog_line mem ssl = Return None) ∧
        (∀ client_random cr,
           s3_val ≠ 0 →
           getitem s3 "client_random" = Return client_random →
           read_memory mem (address client_random) 32 = Return cr →
           get_keylog_line mem ssl = Return (Some (hex_join cr, hex_join mk)) ∧
           length cr = 32%nat ∧ length mk = 48%nat ∧
           string_forallb is_upper_hex (hex_join cr) = true ∧
           string_forallb is_upper_hex (hex_join mk) = true))).
Proof.
  unfold get_keylog_line, _ssl_get_master_key, _read_as_hex.
  rewrite Hsession, Hs3. run_result. rewrite Hsession_val.
  split.
  - intros ->. run_result; rewrite Hs3_val; by run_result.
  - intros mkl len Hne Hmkl Hlen. run_result.
    rewrite Hmkl. run_result. rewrite Hlen. split.
    + intros Hle. run_result; rewrite Hs3_val; by run_result.
    + intros master_key mk Hpos Hmk Hread. run_result.
      rewrite Hmk. run_result. rewrite Hread. run_result.
      rewrite Hs3_val. split.
      * intros ->. by run_result.
      * intros client_random cr Hs3ne Hcr Hreadcr. run_result.
        rewrite Hcr. run_result. rewrite Hreadcr. run_result.
        repeat split; eauto using read_memory_length, hex_join_upper.
Qed.

Lemma get_keylog_line_gating_witness :
  get_keylog_line ex_mem (connection 0 48 100 192 200) = Return None ∧
  get_keylog_line ex_mem (connection 92 0 100 192 200) = Return None ∧
  get_keylog_line ex_mem (connection 92 48 100 0 200) = Return None ∧
  get_keylog_line ex_mem (connection 92 48 100 192 200)
    = Return (Some (hex_join (replicate 32 xab), hex_join (replicate 48 xcd))).
Proof.
  pose proof (λ a b, get_keylog_line_gating ex_mem (connection a 48 100 b 200)
                _ _ a b eq_refl eq_refl eq_refl eq_refl) as H1.
  pose proof (get_keylog_line_gating ex_mem (connection 92 0 100 192 200)
                _ _ 92 192 eq_refl eq_refl eq_refl eq_refl) as H2.
  split; [|split; [|split]].
  - apply (H1 0 192). reflexivity.
  - destruct H2 as [_ H2].
    apply (H2 _ 0 ltac:(lia) eq_refl eq_refl). lia.
  - destruct (H1 92 0) as [_ H].
    destruct (H _ 48 ltac:(lia) eq_refl eq_refl) as [_ H'].
    apply (H' _ (replicate 48 xcd) ltac:(lia) eq_refl eq_refl). reflexivity.
  - destruct (H1 92 192) as [_ H].
    destruct (H _ 48 ltac:(lia) eq_refl eq_refl) as [_ H'].
    destruct (H' _ (replicate 48 xcd) ltac:(lia) eq_refl eq_refl) as [_ H''].
    apply (H'' _ (replicate 32 xab) ltac:(lia) eq_refl eq_refl).
Defined.

(** ** The key log *)

(** Equations of the statement monad. *)

Lemma bind_run {A B} (m : M A) (k : A → M B) st :
  (m ≫= k) st =
  match m st with
  | (Return a, st') => k a st'
  | (Raise e, st') => (Raise e, st')
  end.
Proof. reflexivity. Qed.

Lemma mret_run {A} (a : A) st : (mret a : M A) st = (Return a, st).
Proof. reflexivity. Qed.

Lemma gets_run {A} (f : state → A) st : gets f st = (Return (f st), st).
Proof. reflexivity. Qed.

Lemma modify_run f st : modify f st = (Return (), f st).
Proof. reflexivity. Qed.

Lemma lift_run {A} (r : result A) st : lift r st = (r, st).
Proof. reflexivity. Qed.

Lemma raise_run {A} e st : raise (A:=A) e st = (Raise e, st).
Proof. reflexivity. Qed.

Lemma print_run msg st : print msg st = (Return (), set_stdout (stdout st ++ [msg]) st).
Proof. reflexivity. Qed.

Lemma deref_run self st k : heap st !! self = Some k → deref self st = (Return k, st).
Proof. unfold deref. by intros ->. Qed.

Create Rewrite HintDb run.
#[local] Hint Rewrite @bind_run @mret_run @gets_run modify_run @lift_run @raise_run
  print_run : run.

Ltac run := autorewrite with run; cbn [fst snd].

Lemma notify_fresh self k st cr mk :
  heap st !! self = Some k →
  cr ∉ written_items k →
  closed (keylog_file k) = false →
  string_forallb is_ascii_char cr = true →
  string_forallb is_ascii_char mk = true →
  Keylog.notify self cr mk st = (Return (), logged self k cr mk st).
Proof.
  intros Hk Hfresh Hopen Hcr Hmk.
  unfold Keylog.notify. run. rewrite (deref_run _ _ _ Hk).
  rewrite bool_decide_eq_true_2 by done. run.
  rewrite encode_ascii_ok by by apply keylog_line_ascii.
  unfold write. rewrite Hopen. run. done.
Qed.

Lemma notify_known self k st cr mk :
  heap st !! self = Some k →
  cr ∈ written_items k →
  Keylog.notify self cr mk st = (Return (), st).
Proof.
  intros Hk Hin.
  unfold Keylog.notify. run. rewrite (deref_run _ _ _ Hk).
  rewrite bool_decide_eq_false_2 by (intros ?; done). by run.
Qed.

Lemma notify_closed self k st cr mk :
  heap st !! self = Some k →
  cr ∉ written_items k →
  closed (keylog_file k) = true →
  ∃ e, Keylog.notify self cr mk st = (Raise e, st) ∧
       (string_forallb is_ascii_char cr = true →
        string_forallb is_ascii_char mk = true → e = ValueError).
Proof.
  intros Hk Hfresh Hclosed.
  unfold Keylog.notify. run. rewrite (deref_run _ _ _ Hk).
  rewrite bool_decide_eq_true_2 by done. run.
  destruct (encode_ascii (keylog_line cr mk)) as [data|e] eqn:Henc.
  - unfold write. rewrite Hclosed. eauto.
  - exists e. split; [done|]. intros Hcr Hmk.
    rewrite encode_ascii_ok in Henc by by apply keylog_line_ascii. done.
Qed.

(** A call of [notify] that returns leaves the fingerprint recorded. *)
Lemma notify_returns self st cr mk st1 :
  Keylog.notify self cr mk st = (Return (), st1) →
  ∃ k1, heap st1 !! self = Some k1 ∧ cr ∈ written_items k1.
Proof.
  unfold Keylog.notify. run. unfold deref.
  destruct (heap st !! self) as [k|] eqn:Hk; [|done].
  case_bool_decide as Hin.
  - run. destruct (encode_ascii _); run; [|by intros [=]].
    unfold write. destruct (closed _); [by intros [=]|]. run.
    intros [= <-]. eexists. split.
    + cbn. apply list_lookup_insert_eq. by eapply lookup_lt_Some.
    + cbn. set_solver.
  - run. intros [= <-]. by exists k.
Qed.

Lemma _read_as_hex_returns mem value size h :
  _read_as_hex mem value size = Return h →
  ∃ data, h = hex_join data ∧ length data = size.
Proof.
  unfold _read_as_hex.
  destruct (read_memory mem (address value) size) as [data|] eqn:Hread; [|done].
  intros [= <-]. eauto using read_memory_length.
Qed.

Lemma _ssl_get_master_key_returns mem ssl mk :
  _ssl_get_master_key mem ssl = Return (Some mk) →
  ∃ mkb, mk = hex_join mkb ∧ length mkb = 48%nat.
Proof.
  unfold _ssl_get_master_key.
  destruct (getitem ssl "session") as [session|]; [|done]. cbn [mbind result_bind].
  destruct (fetch session) as [session_val|]; [|done]. cbn [mbind result_bind].
  case_bool_decide; [|done].
  destruct (getitem session "master_key_length") as [mkl|]; [|done]. cbn [mbind result_bind].
  destruct (fetch mkl) as [len|]; [|done]. cbn [mbind result_bind].
  case_bool_decide; [|done].
  destruct (getitem session "master_key") as [master_key|]; [|done]. cbn [mbind result_bind].
  destruct (_read_as_hex mem master_key 48) as [h|] eqn:Hh; [|done]. cbn [mbind result_bind].
  intros [= <-]. by apply _read_as_hex_returns in Hh.
Qed.

(** What [get_keylog_line] returns, when it returns a pair, is the hex
    rendering of 32 and of 48 bytes. *)
Lemma get_keylog_line_returns mem ssl cr mk :
  get_keylog_line mem ssl = Return (Some (cr, mk)) →
  ∃ crb mkb, cr = hex_join crb ∧ mk = hex_join mkb ∧
             length crb = 32%nat ∧ length mkb = 48%nat.
Proof.
  unfold get_keylog_line.
  destruct (_ssl_get_master_key mem ssl) as [[mk'|]|] eqn:Hmk; [| |done]; cbn [mbind result_bind].
  - apply _ssl_get_master_key_returns in Hmk as (mkb & -> & Hmkb).
    destruct (getitem ssl "s3") as [s3|]; [|done]. cbn [mbind result_bind].
    destruct (fetch s3) as [s3_val|]; [|done]. cbn [mbind result_bind].
    case_bool_decide; [done|].
    destruct (getitem s3 "client_random") as [client_random|]; [|done]. cbn [mbind result_bind].
    destruct (_read_as_hex mem client_random 32) as [h|] eqn:Hh; [|done]. cbn [mbind result_bind].
    intros [= <- <-]. apply _read_as_hex_returns in Hh as (crb & -> & Hcrb).
    by exists crb, mkb.
  - destruct (getitem ssl "s3") as [s3|]; [|done]. cbn [mbind result_bind].
    destruct (fetch s3) as [s3_val|]; [|done]. cbn [mbind result_bind].
    by case_bool_decide.
Qed.

Lemma encode_ascii_returns s data :
  encode_ascii s = Return data → data = String.list_byte_of_string s.
Proof.
  unfold String.list_byte_of_string. revert data.
  induction s as [|c s IH]; simpl; intros data.
  - by intros [= <-].
  - destruct (is_ascii_char c); [|done].
    destruct (encode_ascii s) as [bs|]; [|done].
    cbn. intros [= <-]. f_equal. by apply IH.
Qed.

Lemma notify_fresh_returns self k st cr mk st1 :
  heap st !! self = Some k →
  cr ∉ written_items k →
  Keylog.notify self cr mk st = (Return (), st1) →
  st1 = logged self k cr mk st.
Proof.
  intros Hk Hfresh.
  unfold Keylog.notify. run. rewrite (deref_run _ _ _ Hk).
  rewrite bool_decide_eq_true_2 by done. run.
  destruct (encode_ascii _) as [data|] eqn:Henc; [|by intros [=]].
  apply encode_ascii_returns in Henc as ->.
  unfold write. destruct (closed _); [by intros [=]|]. run.
  by intros [= <-].
Qed.

Lemma logged_heap self k cr mk st :
  heap st !! self = Some k →
  heap (logged self k cr mk st) !! self
  = Some {| keylog_file := keylog_file k; written_items := {[cr]} ∪ written_items k |}.
Proof.
  intros Hk. cbn. apply list_lookup_insert_eq. by eapply lookup_lt_Some.
Qed.

Lemma logged_log k k' self cr mk st :
  keylog_file k' = keylog_file k →
  log_of k' (logged self k cr mk st)
  = (log_of k st ++ String.list_byte_of_string (keylog_line cr mk))%list.
Proof.
  intros Hf. unfold log_of, node_of. rewrite Hf. cbn.
  by rewrite lookup_insert_eq.
Qed.

(** C2. Notifying is idempotent per fingerprint.  On an open Keylog that has
    not yet recorded [cr] (with key material that encodes as ASCII, as hex
    strings do), any number [n >= 1] of calls [notify(cr, mk)] all return and
    together append exactly one line to the file and add exactly one element,
    [cr], to the fingerprint set; and for a second unrecorded [cr2 <> cr],
    [notify(cr, mk)] followed by [notify(cr2, mk2)] appends the two lines in
    the order of the calls. *)
Theorem notify_idempotent (self : nat) (k : Keylog) (st : state) (cr mk : string)
    (Hk : heap st !! self = Some k)
    (Hopen : closed (keylog_file k) = false)
    (Hfresh : cr ∉ written_items k)
    (Hcr : string_forallb is_ascii_char cr = true)
    (Hmk : string_forallb is_ascii_char mk = true) :
  (∀ n, (1 ≤ n)%nat →
     ∃ st' k',
       repeat_call n (Keylog.notify self cr mk) st = (Return (), st') ∧
       heap st' !! self = Some k' ∧
       log_of k' st'
       = (log_of k st ++ String.list_byte_of_string (keylog_line cr mk))%list ∧
       written_items k' = {[cr]} ∪ written_items k ∧
       size (written_items k') = S (size (written_items k))) ∧
  (∀ cr2 mk2,
     cr2 ≠ cr →
     cr2 ∉ written_items k →
     string_forallb is_ascii_char cr2 = true →
     string_forallb is_ascii_char mk2 = true →
     ∃ st' k',
       (Keylog.notify self cr mk;; Keylog.notify self cr2 mk2) st = (Return (), st') ∧
       heap st' !! self = Some k' ∧
       log_of k' st'
       = (log_of k st
          ++ String.list_byte_of_string (keylog_line cr mk)
          ++ String.list_byte_of_string (keylog_line cr2 mk2))%list ∧
       written_items k' = {[cr2]} ∪ ({[cr]} ∪ written_items k)).
Proof.
  pose proof (logged_heap self k cr mk st Hk) as Hk1.
  set (k1 := {| keylog_file := keylog_file k;
                written_items := {[cr]} ∪ written_items k |}) in *.
  set (st1 := logged self k cr mk st) in *.
  assert (Hrest : ∀ n, repeat_call n (Keylog.notify self cr mk) st1 = (Return (), st1)).
  { induction n as [|n IH]; [done|].
    cbn [repeat_call]. run.
    rewrite (notify_known self k1 st1) by (done || set_solver). done. }
  split.
  - intros [|n] Hn; [lia|]. exists st1, k1.
    cbn [repeat_call]. run.
    rewrite (notify_fresh self k st) by done. fold st1. rewrite Hrest.
    split_and!; [done|done|by apply logged_log|done|].
    cbn [written_items k1].
    rewrite size_union by set_solver. by rewrite size_singleton.
  - intros cr2 mk2 Hne Hfresh2 Hcr2 Hmk2.
    exists (logged self k1 cr2 mk2 st1),
      {| keylog_file := keylog_file k1; written_items := {[cr2]} ∪ written_items k1 |}.
    run. rewrite (notify_fresh self k st) by done. fold st1.
    assert (Hfresh1 : cr2 ∉ written_items k1).
    { cbn. by rewrite not_elem_of_union, not_elem_of_singleton. }
    rewrite (notify_fresh self k1 st1) by done.
    split_and!; [done| |  |done].
    + by apply logged_heap.
    + rewrite (logged_log k1) by done.
      unfold st1. rewrite (logged_log k) by done. by rewrite <-(assoc_L (++)).
Qed.

Lemma notify_idempotent_witness :
  ∃ st' k',
    repeat_call 3 (Keylog.notify 0 ex_cr ex_mk) ex_state = (Return (), st') ∧
    heap st' !! 0%nat = Some k' ∧
    log_of k' st'
    = (log_of ex_keylog ex_state
       ++ String.list_byte_of_string (keylog_line ex_cr ex_mk))%list ∧
    written_items k' = {[ex_cr]} ∪ written_items ex_keylog ∧
    size (written_items k') = S (size (written_items ex_keylog)).
Proof.
  assert (Hcr : string_forallb is_ascii_char ex_cr = true) by (vm_compute; reflexivity).
  assert (Hmk : string_forallb is_ascii_char ex_mk = true) by (vm_compute; reflexivity).
  refine (proj1 (notify_idempotent 0 ex_keylog ex_state ex_cr ex_mk
                   eq_refl eq_refl (not_elem_of_empty _) Hcr Hmk) 3%nat _).
  lia.
Defined.

(** C9. Deduplication ignores the master secret.  Once [notify(cr, mk1)] has
    returned, [notify(cr, mk2)] returns without changing anything, whatever
    [mk2] is, and so does any further run of notifications for [cr]; if [cr]
    was new to the first call, the file has gained the line that pairs [cr]
    with [mk1], and keeps it. *)
Theorem notify_ignores_master_key (self : nat) (st st1 : state) (cr mk1 mk2 : string)
    (H1 : Keylog.notify self cr mk1 st = (Return (), st1)) :
  Keylog.notify self cr mk2 st1 = (Return (), st1) ∧
  (∀ mks, notify_each self cr mks st1 = (Return (), st1)) ∧
  (∀ k, heap st !! self = Some k →
        cr ∉ written_items k →
        ∃ k1, heap st1 !! self = Some k1 ∧
              written_items k1 = {[cr]} ∪ written_items k ∧
              log_of k1 st1
              = (log_of k st ++ String.list_byte_of_string (keylog_line cr mk1))%list).
Proof.
  destruct (notify_returns _ _ _ _ _ H1) as (k1 & Hk1 & Hin).
  split_and!.
  - by apply (notify_known self k1).
  - induction mks as [|mk mks IH]; [done|].
    cbn [notify_each]. run. by rewrite (notify_known self k1 st1).
  - intros k Hk Hfresh.
    rewrite (notify_fresh_returns _ _ _ _ _ _ Hk Hfresh H1).
    eexists. split_and!; [by apply logged_heap|done|by apply logged_log].
Qed.

Lemma notify_ignores_master_key_witness :
  Keylog.notify 0 ex_cr "00" (logged 0 ex_keylog ex_cr ex_mk ex_state)
  = (Return (), logged 0 ex_keylog ex_cr ex_mk ex_state).
Proof.
  apply (notify_ignores_master_key 0 ex_state _ ex_cr ex_mk "00").
  apply notify_fresh; [reflexivity | apply not_elem_of_empty | reflexivity..].
Defined.

(** C3. Log line format.  A pair [(cr, mk)] returned by [get_keylog_line] is
    the hex rendering of 32 and of 48 bytes: 64 and 96 upper-case
    hexadecimal characters.  Notified to an open Keylog that has not recorded
    [cr], it appends exactly the bytes of [CLIENT_RANDOM ], [cr], one space,
    [mk] and a newline.  For 32 bytes [0xAB] and 48 bytes [0xCD] the line is
    [CLIENT_RANDOM ABAB...AB CDCD...CD] and a newline. *)
Theorem keylog_line_format (mem : inferior) (ssl : Value) (cr mk : string)
    (H : get_keylog_line mem ssl = Return (Some (cr, mk))) :
  (∃ crb mkb, length crb = 32%nat ∧ length mkb = 48%nat ∧
              cr = hex_join crb ∧ mk = hex_join mkb) ∧
  String.length cr = 64%nat ∧ string_forallb is_upper_hex cr = true ∧
  String.length mk = 96%nat ∧ string_forallb is_upper_hex mk = true ∧
  (∀ self k st,
     heap st !! self = Some k →
     closed (keylog_file k) = false →
     cr ∉ written_items k →
     ∃ st' k',
       Keylog.notify self cr mk st = (Return (), st') ∧
       heap st' !! self = Some k' ∧
       log_of k' st'
       = (log_of k st
          ++ String.list_byte_of_string
               ("CLIENT_RANDOM " +:+ cr +:+ " " +:+ mk +:+ nl))%list) ∧
  keylog_line (hex_join (replicate 32 xab)) (hex_join (replicate 48 xcd))
  = "CLIENT_RANDOM ABABABABABABABABABABABABABABABABABABABABABABABABABABABABABABABAB CDCDCDCDCDCDCDCDCDCDCDCDCDCDCDCDCDCDCDCDCDCDCDCDCDCDCDCDCDCDCDCDCDCDCDCDCDCDCDCDCDCDCDCDCDCDCDCD"
    +:+ nl.
Proof.
  destruct (get_keylog_line_returns _ _ _ _ H) as (crb & mkb & -> & -> & Hcrb & Hmkb).
  split_and!.
  - by exists crb, mkb.
  - by rewrite hex_join_length, Hcrb.
  - apply hex_join_upper.
  - by rewrite hex_join_length, Hmkb.
  - apply hex_join_upper.
  - intros self k st Hk Hopen Hfresh.
    exists (logged self k (hex_join crb) (hex_join mkb) st). eexists.
    split_and!.
    + apply notify_fresh; auto using hex_join_ascii.
    + by apply logged_heap.
    + by apply logged_log.
  - reflexivity.
Qed.

Lemma keylog_line_format_witness :
  String.length ex_cr = 64%nat ∧ String.length ex_mk = 96%nat.
Proof.
  pose proof (keylog_line_format ex_mem ex_ssl ex_cr ex_mk eq_refl) as H.
  split; [apply H | apply H].
Defined.

(** ** Notification on a closed log *)

(** C8 as stated fails: [notify] does not look at the state of the file.  A
    finish breakpoint that fires on a Keylog whose file is closed attempts
    the write, and the [ValueError] of the closed file leaves [notify] and
    the [stop] callback. *)
Lemma finish_breakpoint_on_closed_log_raises :
  Keylog.notify 0 ex_cr ex_mk ex_closed_state = (Raise ValueError, ex_closed_state) ∧
  SKLFinishBreakpoint.stop ex_mem ex_finish_breakpoint ex_closed_state
  = (Raise ValueError, ex_closed_state).
Proof. split; reflexivity. Qed.

(** C8, amended.  On a Keylog whose file is closed, a notification is a no-op
    exactly when its client random is already recorded.  For a client random
    not yet recorded the write is attempted and an exception leaves [notify]
    with the state unchanged, a [ValueError] for key material in ASCII; a
    finish breakpoint that extracts such a pair lets the [ValueError]
    escape from its [stop] callback. *)
Theorem notify_on_closed_log (self : nat) (k : Keylog) (st : state) (cr mk : string)
    (Hk : heap st !! self = Some k)
    (Hclosed : closed (keylog_file k) = true) :
  (cr ∈ written_items k → Keylog.notify self cr mk st = (Return (), st)) ∧
  (cr ∉ written_items k → ∃ e, Keylog.notify self cr mk st = (Raise e, st)) ∧
  (cr ∉ written_items k →
   string_forallb is_ascii_char cr = true →
   string_forallb is_ascii_char mk = true →
   Keylog.notify self cr mk st = (Raise ValueError, st)) ∧
  (∀ mem fb,
     key_listener fb = Some self →
     get_keylog_line mem (ssl_ptr fb) = Return (Some (cr, mk)) →
     cr ∉ written_items k →
     SKLFinishBreakpoint.stop mem fb st = (Raise ValueError, st)).
Proof.
  assert (Hraise : cr ∉ written_items k →
                   string_forallb is_ascii_char cr = true →
                   string_forallb is_ascii_char mk = true →
                   Keylog.notify self cr mk st = (Raise ValueError, st)).
  { intros Hfresh Hcr Hmk.
    destruct (notify_closed self k st cr mk Hk Hfresh Hclosed) as (e & -> & He).
    by rewrite He. }
  split_and!.
  - intros Hin. by apply (notify_known self k).
  - intros Hfresh.
    destruct (notify_closed self k st cr mk Hk Hfresh Hclosed) as (e & He & _).
    by exists e.
  - done.
  - intros mem fb Hfb Hline Hfresh.
    assert (string_forallb is_ascii_char cr = true ∧
            string_forallb is_ascii_char mk = true) as [Hcr Hmk].
    { destruct (get_keylog_line_returns _ _ _ _ Hline) as (crb & mkb & -> & -> & _).
      auto using hex_join_ascii. }
    unfold SKLFinishBreakpoint.stop. run. rewrite Hline, Hfb. run.
    by rewrite Hraise.
Qed.

Lemma notify_on_closed_log_witness :
  SKLFinishBreakpoint.stop ex_mem ex_finish_breakpoint ex_closed_state
  = (Raise ValueError, ex_closed_state).
Proof.
  apply (notify_on_closed_log 0 ex_closed_keylog ex_closed_state ex_cr ex_mk
           eq_refl eq_refl).
  - reflexivity.
  - reflexivity.
  - apply not_elem_of_empty.
Defined.

(** ** Creation of the key log *)

Lemma open_log_run filename st :
  Keylog.open_log filename st =
  match fs st !! filename with
  | None => (Return (opened filename), set_fs (<[filename := new_file]> (fs st)) st)
  | Some n =>
      match append_errno n with
      | None => (Return (opened filename), st)
      | Some e =>
          if bool_decide (e = ESPIPE) then
            match write_errno n with
            | Some e' => (Raise (OSError e'), st)
            | None => (Return (opened filename),
                       set_fs (<[filename := truncate n]> (fs st)) st)
            end
          else (Raise (OSError e), st)
      end
  end.
Proof.
  unfold Keylog.open_log, try_except, open_.
  destruct (fs st !! filename) as [n|] eqn:Hn; [|done].
  destruct (append_errno n) as [e|]; [|done].
  case_bool_decide; [|done].
  unfold open_. rewrite Hn. by destruct (write_errno n).
Qed.

Lemma needs_header_run f st :
  Keylog.needs_header f st =
  (Return (match tell f st with
           | (Return pos, _) => bool_decide (pos = 0%nat)
           | (Raise _, _) => false
           end), st).
Proof.
  unfold Keylog.needs_header, try_except. rewrite bind_run.
  unfold tell. destruct (closed f); [done|].
  by destruct (seekable _).
Qed.

Lemma create_run filename st :
  Keylog.create filename st =
  match Keylog.open_log filename st with
  | (Raise e, st1) => (Raise e, st1)
  | (Return f, st1) =>
      let st2 :=
        match tell f st1 with
        | (Return O, _) =>
            set_fs (<[name f := append_bytes header_bytes (node_of (fs st1) (name f))]>
                      (fs st1)) st1
        | _ => st1
        end in
      (Return (length (heap st2)),
       set_heap (heap st2 ++ [{| keylog_file := f; written_items := ∅ |}]) st2)
  end.
Proof.
  unfold Keylog.create. rewrite bind_run.
  destruct (Keylog.open_log filename st) as [[f|e] st1]; [|done].
  rewrite bind_run, needs_header_run.
  destruct (tell f st1) as [[[|pos]|e] st'] eqn:Htell; cbn zeta; run; try done.
  rewrite bool_decide_eq_true_2 by done. run.
  rewrite encode_ascii_ok by reflexivity. fold header_bytes.
  unfold write. unfold tell in Htell.
  destruct (closed f); [done|]. by run.
Qed.

Lemma node_of_insert files filename n :
  node_of (<[filename := n]> files) filename = n.
Proof. unfold node_of. by rewrite lookup_insert_eq. Qed.

Lemma node_of_lookup files filename n :
  files !! filename = Some n → node_of files filename = n.
Proof. unfold node_of. by intros ->. Qed.

Lemma open_log_returns filename st f st1 :
  Keylog.open_log filename st = (Return f, st1) →
  f = opened filename ∧ heap st1 = heap st ∧
  (∀ other, other ≠ filename → fs st1 !! other = fs st !! other) ∧
  (fs st !! filename = None → node_of (fs st1) filename = new_file) ∧
  (∀ n, fs st !! filename = Some n →
        (append_errno n = None ∧ st1 = st) ∨
        (append_errno n = Some ESPIPE ∧ write_errno n = None ∧
         node_of (fs st1) filename = truncate n)).
Proof.
  rewrite open_log_run.
  destruct (fs st !! filename) as [n|] eqn:Hn.
  - destruct (append_errno n) as [e|] eqn:He.
    + case_bool_decide as Hpipe; [|by intros [=]].
      destruct (write_errno n) as [e'|] eqn:He'; [by intros [=]|].
      intros [= <- <-]. split_and!; [done|done| | |].
      * intros other Hne. cbn. by rewrite lookup_insert_ne.
      * done.
      * intros n' [= <-]. right. subst e. cbn. by rewrite node_of_insert.
    + intros [= <- <-]. split_and!; try done.
      intros n' [= <-]. by left.
  - intros [= <- <-]. split_and!; try done.
    + intros other Hne. cbn. by rewrite lookup_insert_ne.
    + intros _. cbn. by rewrite node_of_insert.
Qed.

(** C4. The header is written once, and only to a file found empty.  When
    [create] has opened the file, it returns a new Keylog; it appends the
    header line exactly when the position probe [tell] returns 0, in which
    case the file was empty and now holds the header alone; it writes nothing
    when the probe returns another position, when the file has content, or
    when the probe raises.  In terms of the path before the call: a missing
    file ends up holding the header, a seekable file opened for appending
    keeps its content and gains the header only if that content is empty, a
    file that cannot seek is left as it is, and no other file changes. *)
Theorem create_header_once (filename : string) (st st1 : state) (f : FileIO)
    (Hopen : Keylog.open_log filename st = (Return f, st1)) :
  ∃ st',
    Keylog.create filename st = (Return (length (heap st)), st') ∧
    heap st' = (heap st ++ [{| keylog_file := f; written_items := ∅ |}])%list ∧
    (tell f st1 = (Return 0%nat, st1) →
       file_content filename st1 = [] ∧ file_content filename st' = header_bytes) ∧
    (tell f st1 ≠ (Return 0%nat, st1) → fs st' = fs st1) ∧
    (file_content filename st1 ≠ [] → fs st' = fs st1) ∧
    (∀ e, tell f st1 = (Raise e, st1) → fs st' = fs st1) ∧
    (fs st !! filename = None → file_content filename st' = header_bytes) ∧
    (∀ n, fs st !! filename = Some n →
          append_errno n = None → seekable n = true →
          file_content filename st'
          = (content n ++ if bool_decide (content n = []) then header_bytes else [])%list) ∧
    (∀ n, fs st !! filename = Some n → seekable n = false →
          file_content filename st' = content n) ∧
    (∀ other, other ≠ filename → fs st' !! other = fs st !! other).
Proof.
  destruct (open_log_returns _ _ _ _ Hopen) as (-> & Hheap & Hother & Hnew & Hold).
  rewrite create_run, Hopen. cbn zeta.
  unfold file_content, tell. cbn [closed opened name].
  destruct (node_of (fs st1) filename) as [c sk ae we] eqn:Hnd.
  cbn [seekable content].
  destruct sk; [destruct c as [|b c]|]; cbn [length]; cbn [heap set_fs];
    rewrite Hheap;
    (eexists; split; [reflexivity|]); cbn [heap set_heap fs set_fs];
    rewrite ?Hheap, ?node_of_insert, ?Hnd; cbn [content append_bytes seekable app].
  all: split_and!; try done.
  all: try (intros other Hne; rewrite ?lookup_insert_ne by done; by apply Hother).
  all: try (intros Hnone; by specialize (Hnew Hnone)).
  all: intros n Hn; intros;
    destruct (Hold n Hn) as [[Hae ->] | (Hae & Hwe & Htr)];
    [ rewrite (node_of_lookup _ _ _ Hn) in Hnd; subst n
    | unfold truncate in Htr; destruct n as [c' [] ae' we'] ];
    cbn in *; simplify_eq; try done.
  by rewrite app_nil_r.
Qed.

Lemma create_header_once_witness :
  ∃ st', Keylog.create "keys.log" (init ∅ ∅ true) = (Return 0%nat, st') ∧
         file_content "keys.log" st' = header_bytes.
Proof.
  assert (Hopen : Keylog.open_log "keys.log" (init ∅ ∅ true)
                  = (Return (opened "keys.log"),
                     set_fs (<["keys.log" := new_file]> ∅) (init ∅ ∅ true))).
  { vm_compute. reflexivity. }
  destruct (create_header_once "keys.log" (init ∅ ∅ true) _ _ Hopen)
    as (st' & Hcreate & _ & _ & _ & _ & _ & Hnew & _).
  exists st'. split; [exact Hcreate | by apply Hnew].
Defined.

(** When [create] raises, it is [open] that raised, and nothing has changed. *)
Lemma create_raises filename st e st' :
  Keylog.create filename st = (Raise e, st') →
  st' = st ∧
  ∃ n errno,
    fs st !! filename = Some n ∧ e = OSError errno ∧
    ((append_errno n = Some errno ∧ errno ≠ ESPIPE) ∨
     (append_errno n = Some ESPIPE ∧ write_errno n = Some errno)).
Proof.
  rewrite create_run, open_log_run.
  destruct (fs st !! filename) as [n|] eqn:Hn; [|by intros [=]].
  destruct (append_errno n) as [errno|] eqn:Ha; [|by intros [=]].
  case_bool_decide as Hpipe.
  - destruct (write_errno n) as [errno'|] eqn:Hw; [|by intros [=]].
    intros [= <- <-]. split; [done|]. exists n, errno'. subst errno. eauto.
  - intros [= <- <-]. split; [done|]. exists n, errno. eauto.
Qed.

(** ** Session control *)

(** C10. [enable] is atomic on a failure to create the log.  With no Keylog
    open, if [Keylog.create] raises then [enable] raises the same exception
    before its loop: the state, and in it the watch set, gdb's breakpoint
    table and the unset Keylog reference, is unchanged.  The exception is the
    [OSError] of [open]: of the append mode when that is not [ESPIPE], else of
    the write mode to which [ESPIPE] falls back. *)
Theorem enable_atomic_on_create_failure (st st' : state) (e : exn)
    (Hnone : _keylog_file st = None)
    (Hraise : Keylog.create (keylog_filename st) st = (Raise e, st')) :
  enable st = (Raise e, st) ∧
  _locations (enable st).2 = _locations st ∧
  breakpoints (enable st).2 = breakpoints st ∧
  _keylog_file (enable st).2 = None ∧
  ∃ n errno,
    fs st !! keylog_filename st = Some n ∧ e = OSError errno ∧
    ((append_errno n = Some errno ∧ errno ≠ ESPIPE) ∨
     (append_errno n = Some ESPIPE ∧ write_errno n = Some errno)).
Proof.
  destruct (create_raises _ _ _ _ Hraise) as [-> Hwhy].
  assert (Henable : enable st = (Raise e, st)).
  { unfold enable. run. rewrite Hnone. run. by rewrite Hraise. }
  rewrite Henable. by split_and!.
Qed.

Lemma enable_atomic_on_create_failure_witness :
  enable ex_denied_state = (Raise (OSError 13), ex_denied_state) ∧
  _locations (enable ex_denied_state).2 = _locations ex_denied_state.
Proof.
  assert (Hraise : Keylog.create (keylog_filename ex_denied_state) ex_denied_state
                   = (Raise (OSError 13), ex_denied_state))
    by (vm_compute; reflexivity).
  destruct (enable_atomic_on_create_failure ex_denied_state _ _ eq_refl Hraise)
    as (H1 & H2 & _).
  split; [exact H1 | exact H2].
Defined.

Lemma enable_loop_cons_None name rest st :
  enable_loop ((name, None) :: rest) st = enable_loop rest (install name st).
Proof. reflexivity. Qed.

Lemma enable_loop_cons_Some name n rest st :
  enable_loop ((name, Some n) :: rest) st
  = enable_loop rest (set_stdout (stdout st ++ [already_active name]) st).
Proof. reflexivity. Qed.

Lemma disable_loop_cons_None name rest st :
  disable_loop ((name, None) :: rest) st = disable_loop rest st.
Proof. reflexivity. Qed.

Lemma disable_loop_cons_Some name n rest st :
  disable_loop ((name, Some n) :: rest) st
  = match find_breakpoint n (breakpoints st) with
    | Some b => disable_loop rest (uninstall name n b st)
    | None => (Raise RuntimeError, st)
    end.
Proof.
  cbn [disable_loop]. rewrite !bind_run. unfold breakpoint_of.
  by destruct (find_breakpoint n (breakpoints st)).
Qed.

(** What the loop of [enable] leaves alone. *)
Lemma enable_loop_frame items : ∀ st,
  (enable_loop items st).1 = Return () ∧
  fs (enable_loop items st).2 = fs st ∧
  heap (enable_loop items st).2 = heap st ∧
  keylog_filename (enable_loop items st).2 = keylog_filename st ∧
  _keylog_file (enable_loop items st).2 = _keylog_file st ∧
  executed (enable_loop items st).2 = executed st ∧
  selected_thread (enable_loop items st).2 = selected_thread st.
Proof.
  induction items as [|[name [n|]] rest IH]; intros st; [done| |].
  - rewrite enable_loop_cons_Some. by destruct (IH (set_stdout (stdout st ++ [already_active name]) st)) as (-> & -> & -> & -> & -> & -> & ->).
  - rewrite enable_loop_cons_None. by destruct (IH (install name st)) as (-> & -> & -> & -> & -> & -> & ->).
Qed.

Lemma set_fs_id st : set_fs (fs st) st = st.
Proof. by destruct st. Qed.

(** [create] either fails and changes nothing, or stores a new Keylog over
    the opened file and changes, besides, only the file system. *)
Lemma create_shape filename st :
  (∃ e, Keylog.create filename st = (Raise e, st)) ∨
  (∃ files,
     Keylog.create filename st
     = (Return (length (heap st)),
        set_heap (heap st ++ [{| keylog_file := opened filename; written_items := ∅ |}])
          (set_fs files st))).
Proof.
  destruct (Keylog.create filename st) as [[k|e] st'] eqn:Hcreate.
  - right. revert Hcreate. rewrite create_run.
    destruct (Keylog.open_log filename st) as [[f|e] st1] eqn:Hopen; [|by intros [=]].
    destruct (open_log_returns _ _ _ _ Hopen) as (-> & _).
    assert (∃ files, st1 = set_fs files st) as [files ->].
    { revert Hopen. rewrite open_log_run.
      destruct (fs st !! filename) as [n|]; [|intros [= <-]; eauto].
      destruct (append_errno n); [|intros [= <-]; exists (fs st); by rewrite set_fs_id].
      case_bool_decide; [|by intros [=]].
      destruct (write_errno n); [by intros [=]|]. intros [= <-]; eauto. }
    cbn zeta. intros [= <- <-].
    destruct (tell (opened filename) (set_fs files st)) as [[[|pos]|e] ?]; eauto.
  - left. destruct (create_raises _ _ _ _ Hcreate) as [-> _]. eauto.
Qed.

Lemma enable_run st :
  enable st =
  match _keylog_file st with
  | Some _ => enable_loop (_locations st) st
  | None =>
      match Keylog.create (keylog_filename st) st with
      | (Raise e, st1) => (Raise e, st1)
      | (Return k, st1) =>
          let st2 := set_stdout
                       (stdout st1 ++ ["Started logging SSL keys to " +:+ keylog_filename st])
                       (set__keylog_file (Some k) st1) in
          enable_loop (_locations st2) st2
      end
  end.
Proof.
  unfold enable. run. destruct (_keylog_file st).
  - by run.
  - run. destruct (Keylog.create (keylog_filename st) st) as [[k|e] st1]; by run.
Qed.

(** [enable] never assigns [keylog_filename]. *)
Lemma enable_keylog_filename st :
  keylog_filename (enable st).2 = keylog_filename st.
Proof.
  rewrite enable_run. destruct (_keylog_file st).
  - apply enable_loop_frame.
  - destruct (create_shape (keylog_filename st) st) as [[e ->]|[files ->]]; [done|].
    cbn zeta.
    match goal with |- context [enable_loop ?i ?s] =>
      destruct (enable_loop_frame i s) as (_ & _ & _ & -> & _) end.
    done.
Qed.

(** With no Keylog open, an [enable] that returns has opened the file named
    by [keylog_filename]. *)
Lemma enable_opens st st' :
  _keylog_file st = None →
  enable st = (Return (), st') →
  ∃ r k, _keylog_file st' = Some r ∧ heap st' !! r = Some k ∧
         keylog_file k = opened (keylog_filename st) ∧ written_items k = ∅.
Proof.
  intros Hnone. rewrite enable_run, Hnone.
  destruct (create_shape (keylog_filename st) st) as [[e ->]|[files ->]]; [by intros [=]|].
  cbn zeta.
  match goal with |- context [enable_loop ?i ?s] =>
    pose proof (enable_loop_frame i s) as (_ & _ & Hheap & _ & Hkf & _);
    destruct (enable_loop i s) as [r st2] end.
  intros [= -> ->]. cbn in Hheap, Hkf.
  exists (length (heap st)). eexists.
  split_and!; [exact Hkf | rewrite Hheap; by apply list_lookup_middle | done..].
Qed.

Lemma start_run sslkeylogfile cont st :
  start sslkeylogfile cont st =
  let st0 := match sslkeylogfile with
             | Some path => if bool_decide (path ≠ "") then set_keylog_filename path st else st
             | None => st
             end in
  match enable st0 with
  | (Return _, st1) =>
      if cont && selected_thread st1
      then (Return (), set_executed (executed st1 ++ ["continue"]) st1)
      else (Return (), st1)
  | (Raise e, st1) => (Raise e, st1)
  end.
Proof.
  unfold start. rewrite bind_run. cbn zeta.
  assert (Hrest : ∀ st0,
    (enable ≫= λ _, gets selected_thread ≫= λ thread : bool,
       if cont && thread then gdb_execute "continue" else mret ()) st0
    = match enable st0 with
      | (Return _, st1) =>
          if cont && selected_thread st1
          then (Return (), set_executed (executed st1 ++ ["continue"]) st1)
          else (Return (), st1)
      | (Raise e, st1) => (Raise e, st1)
      end).
  { intros st0. rewrite bind_run. destruct (enable st0) as [[[]|e] st1]; [|done].
    run. by destruct (cont && selected_thread st1). }
  destruct sslkeylogfile as [path|]; [case_bool_decide|]; run; apply Hrest.
Qed.

(** C6 as stated fails: an explicit path is assigned to the module global
    [keylog_filename] and stays there.  After [start("premaster.txt")], a
    call of [stop] and a [start()] without a path, the configured path is
    still [premaster.txt], not the default [keys.log], and [keys.log] has
    never been created; the same holds when the later session begins with the
    Keylog reference cleared, where the new Keylog is opened on
    [premaster.txt]. *)
Lemma start_override_persists :
  let st0 := init ∅ ∅ false in
  let st1 := (start (Some "premaster.txt") true st0).2 in
  let st2 := (stop st1).2 in
  let st3 := (start None true st2).2 in
  let st3' := (start None true (set__keylog_file None st2)).2 in
  keylog_filename st0 = "keys.log" ∧
  keylog_filename st1 = "premaster.txt" ∧
  keylog_filename st3 = "premaster.txt" ∧
  fs st3 !! "keys.log" = None ∧
  file_content "premaster.txt" st3 = header_bytes ∧
  keylog_filename st3' = "premaster.txt" ∧
  _keylog_file st3' = Some 1%nat ∧
  keylog_file <$> heap st3' !! 1%nat = Some (opened "premaster.txt") ∧
  fs st3' !! "keys.log" = None.
Proof. vm_compute. by split_and!. Qed.

(** C6, amended.  An explicit, non-empty path given to [start] replaces the
    configured output path [keylog_filename], and nothing restores it: a
    [start] without a path, or with an empty one, leaves [keylog_filename] as
    it finds it.  A [start] that returns from a state with no Keylog open has
    opened its Keylog on the explicit path if one was given, and otherwise on
    the configured path, which is the last explicit path of an earlier call if
    there was one. *)
Theorem start_path_override (st : state) (cont : bool) :
  (∀ path, path ≠ "" → keylog_filename (start (Some path) cont st).2 = path) ∧
  keylog_filename (start None cont st).2 = keylog_filename st ∧
  keylog_filename (start (Some "") cont st).2 = keylog_filename st ∧
  (∀ sslkeylogfile st',
     _keylog_file st = None →
     start sslkeylogfile cont st = (Return (), st') →
     ∃ r k, _keylog_file st' = Some r ∧ heap st' !! r = Some k ∧
            keylog_file k
            = opened match sslkeylogfile with
                     | Some path => if bool_decide (path ≠ "") then path
                                    else keylog_filename st
                     | None => keylog_filename st
                     end).
Proof.
  assert (Hname : ∀ sslkeylogfile,
    keylog_filename (start sslkeylogfile cont st).2
    = match sslkeylogfile with
      | Some path => if bool_decide (path ≠ "") then path else keylog_filename st
      | None => keylog_filename st
      end).
  { intros o. rewrite start_run. cbn zeta.
    match goal with |- context [enable ?s] =>
      pose proof (enable_keylog_filename s) as Hen;
      destruct (enable s) as [[[]|e] st1] end; cbn [snd] in *.
    - destruct (cont && selected_thread st1); cbn; rewrite Hen;
        destruct o as [path|]; [case_bool_decide| |case_bool_decide|]; done.
    - rewrite Hen. destruct o as [path|]; [case_bool_decide|]; done. }
  split_and!.
  - intros path Hpath. by rewrite Hname, bool_decide_eq_true_2.
  - apply Hname.
  - by rewrite Hname.
  - intros o st' Hnone. rewrite start_run. cbn zeta.
    match goal with |- context [enable ?s] =>
      pose proof (enable_opens s) as Hen;
      destruct (enable s) as [[[]|e] st1] end; [|by intros [=]].
    destruct (Hen st1) as (r & k & Hr & Hk & Hf & _); [|done|].
    { destruct o as [path|]; [case_bool_decide|]; done. }
    assert (Hpath : keylog_file k
                    = opened match o with
                             | Some path => if bool_decide (path ≠ "") then path
                                            else keylog_filename st
                             | None => keylog_filename st
                             end).
    { rewrite Hf. destruct o as [path|]; [case_bool_decide|]; done. }
    destruct (cont && selected_thread st1); intros [= <-]; by exists r, k.
Qed.

Lemma start_path_override_witness :
  keylog_filename (start (Some "premaster.txt") true (init ∅ ∅ false)).2
  = "premaster.txt".
Proof.
  refine (proj1 (start_path_override (init ∅ ∅ false) true) "premaster.txt" _).
  discriminate.
Defined.

(** [stop] as the code has it: with a Keylog open, the call
    [_keylog_file.close()] raises once [disable] is through, and nothing
    after it runs. *)
Lemma stop_run st :
  stop st =
  match _keylog_file st with
  | None => (Return (), set_stdout (stdout st ++ ["No active keylog session"]) st)
  | Some _ =>
      match disable st with
      | (Return _, st1) => (Raise TypeError, st1)
      | (Raise e, st1) => (Raise e, st1)
      end
  end.
Proof.
  unfold stop. run. destruct (_keylog_file st) as [k|]; [|by run].
  run. by destruct (disable st) as [[[]|e] st1].
Qed.

(** C5, at a session started on an empty file system.  The first half of the
    contract holds: with no Keylog open, [stop] prints its message and does
    nothing else.  With a Keylog open, [stop] removes the breakpoints and then
    raises [TypeError] at [_keylog_file.close()]: the file is still open, no
    count is printed, the Keylog reference is still set, and a second [stop]
    raises again instead of taking the branch of no session. *)
Theorem stop_fails_to_close :
  let st0 := init ∅ ∅ true in
  let st1 := (start None true st0).2 in
  let st2 := (stop st1).2 in
  stop st0 = (Return (), set_stdout ["No active keylog session"] st0) ∧
  _keylog_file st1 = Some 0%nat ∧
  (stop st1).1 = Raise TypeError ∧
  breakpoints st2 = [] ∧
  closed ∘ keylog_file <$> heap st2 !! 0%nat = Some false ∧
  stdout st2 = (stdout st1 ++
                ["Deleting breakpoint 1 (SSL_connect)";
                 "Deleting breakpoint 2 (SSL_do_handshake)";
                 "Deleting breakpoint 3 (SSL_accept)";
                 "Deleting breakpoint 4 (SSL_read)";
                 "Deleting breakpoint 5 (SSL_write)"])%list ∧
  _keylog_file st2 = Some 0%nat ∧
  (stop st2).1 = Raise TypeError.
Proof. vm_compute. by split_and!. Qed.

(** ** The watch set *)

Section dict.
Context {A : Type}.
Implicit Types (d : list (string * A)) (name : string) (v : A).

Lemma dict_set_keys name v d : name ∈ d.*1 → (dict_set name v d).*1 = d.*1.
Proof.
  induction d as [|[k x] d IH]; [by intros ?%elem_of_nil|].
  cbn [dict_set]. destruct (String.eqb_spec k name) as [->|Hne]; [done|].
  rewrite fmap_cons, elem_of_cons. intros [Heq|Hin]; [done|].
  cbn. f_equal. by apply IH.
Qed.

Lemma dict_functional d name v1 v2 :
  NoDup d.*1 → (name, v1) ∈ d → (name, v2) ∈ d → v1 = v2.
Proof.
  induction d as [|[k x] d IH]; [by intros _ ?%elem_of_nil|].
  rewrite fmap_cons, NoDup_cons, !elem_of_cons. intros [Hk Hd] [H1|H1] [H2|H2].
  - congruence.
  - simplify_eq. destruct Hk. by apply (list_elem_of_fmap_2 fst _ (k, v2)).
  - simplify_eq. destruct Hk. by apply (list_elem_of_fmap_2 fst _ (k, v1)).
  - by apply IH.
Qed.

Lemma elem_of_dict_set name v d e :
  NoDup d.*1 → name ∈ d.*1 →
  e ∈ dict_set name v d ↔ e = (name, v) ∨ (e ∈ d ∧ e.1 ≠ name).
Proof.
  induction d as [|[k x] d IH]; [by intros _ ?%elem_of_nil|].
  rewrite fmap_cons, NoDup_cons. intros [Hk Hd] Hname. cbn [fst] in Hk.
  cbn [dict_set]. destruct (String.eqb_spec k name) as [->|Hne].
  - rewrite !elem_of_cons. split.
    + intros [->|Hin]; [by left|]. right. split; [by right|].
      intros <-. destruct Hk. by apply (list_elem_of_fmap_2 fst _ e).
    + intros [->|[[->|Hin] He]]; [by left|done|by right].
  - apply elem_of_cons in Hname as [Heq|Hname]; [done|].
    rewrite !elem_of_cons, (IH Hd Hname). cbn in Hne.
    split; [intros [->|[->|[??]]]|intros [->|[[->|?] ?]]]; auto.
Qed.
End dict.

Lemma NoDup_fmap_filter {A B} (f : A → B) (P : A → Prop) `{!∀ x, Decision (P x)}
    (l : list A) :
  NoDup (f <$> l) → NoDup (f <$> filter P l).
Proof.
  induction l as [|x l IH]; [done|].
  rewrite fmap_cons, NoDup_cons. intros [Hx Hl].
  rewrite filter_cons. case_decide; [|by apply IH].
  rewrite fmap_cons, NoDup_cons. split; [|by apply IH].
  rewrite list_elem_of_fmap in Hx |- *. intros (y & Hy & Hin).
  apply list_elem_of_filter in Hin as [_ Hin]. eauto.
Qed.

Lemma NoDup_fmap_eq {A B} (f : A → B) (l : list A) x y :
  NoDup (f <$> l) → x ∈ l → y ∈ l → f x = f y → x = y.
Proof.
  induction l as [|z l IH]; [by intros _ ?%elem_of_nil|].
  rewrite fmap_cons, NoDup_cons, !elem_of_cons. intros [Hz Hl] [->|Hx] [->|Hy] Hf.
  - done.
  - destruct Hz. rewrite Hf. by apply list_elem_of_fmap_2.
  - destruct Hz. rewrite <-Hf. by apply list_elem_of_fmap_2.
  - by apply IH.
Qed.

Lemma find_breakpoint_Some n table b :
  find_breakpoint n table = Some b → b ∈ table ∧ number b = n.
Proof.
  induction table as [|b' table IH]; [done|].
  cbn [find_breakpoint]. case_bool_decide.
  - intros [= ->]. split; [by left|done].
  - intros [??]%IH. split; [by right|done].
Qed.

Lemma find_breakpoint_elem_of n table b :
  b ∈ table → number b = n → is_Some (find_breakpoint n table).
Proof.
  induction table as [|b' table IH]; [by intros ?%elem_of_nil|].
  cbn [find_breakpoint]. rewrite elem_of_cons. case_bool_decide; [by eauto|].
  intros [->|Hin] Hn; [done|by apply IH].
Qed.

Lemma NoDup_symbols : NoDup symbols.
Proof. apply (bool_decide_unpack _). by vm_compute. Qed.

Lemma watch_inv_init environ files thread : watch_inv (init environ files thread).
Proof.
  split; cbn; try done.
  - constructor.
  - by intros b ?%elem_of_nil.
  - intros name n Hin. exfalso.
    repeat (apply elem_of_cons in Hin as [[=]|Hin]). by apply elem_of_nil in Hin.
  - by intros b ?%elem_of_nil.
Qed.

(** The invariant reads four fields only. *)
Lemma watch_inv_ext st st' :
  _locations st' = _locations st →
  breakpoints st' = breakpoints st →
  next_number st' = next_number st →
  (is_Some (_keylog_file st) → is_Some (_keylog_file st')) →
  watch_inv st → watch_inv st'.
Proof.
  intros Hl Hb Hn Hk [].
  split; rewrite ?Hl, ?Hb, ?Hn; auto.
Qed.

Lemma watch_inv_keys st : watch_inv st → NoDup (_locations st).*1.
Proof. intros []. rewrite inv_symbols0. apply NoDup_symbols. Qed.

Lemma install_inv name st :
  watch_inv st →
  is_Some (_keylog_file st) →
  (name, None) ∈ _locations st →
  watch_inv (install name st).
Proof.
  intros Hinv Hkl Hname. pose proof (watch_inv_keys _ Hinv) as Hkeys.
  destruct Hinv as [Hsym Hnum Hnext Hwatched Hinst Hsess].
  assert (Hin : name ∈ (_locations st).*1)
    by by apply (list_elem_of_fmap_2 fst _ (name, None)).
  split; cbn.
  - by rewrite dict_set_keys.
  - rewrite fmap_app, NoDup_app. split_and!; [done| |apply NoDup_singleton].
    intros n (b & -> & Hb)%list_elem_of_fmap [Heq|[]%elem_of_nil]%elem_of_cons.
    specialize (Hnext b Hb). cbn in Heq. lia.
  - intros b [Hb| ->%list_elem_of_singleton]%elem_of_app; [|cbn; lia].
    specialize (Hnext b Hb). lia.
  - intros name' n'. rewrite elem_of_dict_set by done.
    intros [[= -> <-]|[Hold _]].
    + eexists. split; [apply elem_of_app; right; by apply list_elem_of_singleton|done].
    + destruct (Hwatched _ _ Hold) as (b & Hb & ? & ?).
      exists b. split; [apply elem_of_app; by left|done].
  - intros b. rewrite elem_of_dict_set by done.
    intros [Hb| ->%list_elem_of_singleton]%elem_of_app; [|by left].
    right. split; [by apply Hinst|]. cbn. intros Heq.
    specialize (Hinst b Hb). rewrite Heq in Hinst.
    by pose proof (dict_functional _ _ _ _ Hkeys Hinst Hname).
  - done.
Qed.

Lemma uninstall_inv name n b st :
  watch_inv st →
  (name, Some n) ∈ _locations st →
  watch_inv (uninstall name n b st).
Proof.
  intros Hinv Hname. pose proof (watch_inv_keys _ Hinv) as Hkeys.
  destruct Hinv as [Hsym Hnum Hnext Hwatched Hinst Hsess].
  assert (Hin : name ∈ (_locations st).*1)
    by by apply (list_elem_of_fmap_2 fst _ (name, Some n)).
  split; cbn.
  - by rewrite dict_set_keys.
  - by apply NoDup_fmap_filter.
  - intros b' [_ Hb']%list_elem_of_filter. by apply Hnext.
  - intros name' n'. rewrite elem_of_dict_set by done.
    intros [[=]|[Hold Hne]]. cbn in Hne.
    destruct (Hwatched _ _ Hold) as (b' & Hb' & Hn' & Hloc).
    exists b'. split; [|done]. apply list_elem_of_filter. split; [|done].
    intros Heq. destruct (Hwatched _ _ Hname) as (b'' & Hb'' & Hn'' & Hloc'').
    assert (b' = b'') by (eapply NoDup_fmap_eq; [exact Hnum|done..|congruence]).
    congruence.
  - intros b'. rewrite elem_of_dict_set by done.
    intros [Hne Hb']%list_elem_of_filter.
    right. split; [by apply Hinst|]. cbn. intros Heq.
    specialize (Hinst b' Hb'). rewrite Heq in Hinst.
    pose proof (dict_functional _ _ _ _ Hkeys Hinst Hname). congruence.
  - intros Hne. apply Hsess. intros Hnil. rewrite Hnil in Hne. by apply Hne.
Qed.

(** The loop of [enable], from a state that satisfies the invariant and has
    a Keylog, over entries of the watch set: it returns, keeps the invariant
    and every entry that is watched, only adds breakpoints, one per
    unwatched entry, and prints the message for each watched entry. *)
Lemma enable_loop_inv items : ∀ st,
  watch_inv st →
  is_Some (_keylog_file st) →
  NoDup items.*1 →
  (∀ e, e ∈ items → e ∈ _locations st) →
  watch_inv (enable_loop items st).2 ∧
  (∀ e, e ∈ _locations st → is_Some e.2 → e ∈ _locations (enable_loop items st).2) ∧
  ∃ news msgs,
    breakpoints (enable_loop items st).2 = (breakpoints st ++ news)%list ∧
    stdout (enable_loop items st).2 = (stdout st ++ msgs)%list ∧
    (∀ b, b ∈ news → (location b, None) ∈ items) ∧
    (∀ name n, (name, Some n) ∈ items → already_active name ∈ msgs).
Proof.
  induction items as [|[name [n|]] rest IH]; intros st Hinv Hkl Hnodup Hitems.
  - split_and!; [done..|]. exists [], []. rewrite !app_nil_r.
    split_and!; [done|done|by intros ? ?%elem_of_nil|by intros ?? ?%elem_of_nil].
  - rewrite fmap_cons, NoDup_cons in Hnodup. destruct Hnodup as [Hname Hnodup].
    rewrite enable_loop_cons_Some.
    set (st1 := set_stdout (stdout st ++ [already_active name]) st).
    destruct (IH st1) as (Hinv' & Hkept & news & msgs & Hbs & Hout & Hnews & Hmsgs).
    { by apply (watch_inv_ext st). }
    { done. }
    { done. }
    { intros e He. apply Hitems. by right. }
    split_and!; [done|done|].
    exists news, (already_active name :: msgs). split_and!.
    + done.
    + rewrite Hout. cbn. by rewrite <-(assoc_L (++)).
    + intros b Hb. right. by apply Hnews.
    + intros name' n' [[= -> ->]|Hin]%elem_of_cons; [by left|].
      right. by eapply Hmsgs.
  - rewrite fmap_cons, NoDup_cons in Hnodup. destruct Hnodup as [Hname Hnodup].
    rewrite enable_loop_cons_None.
    pose proof (watch_inv_keys _ Hinv) as Hkeys.
    assert (Hhere : (name, None) ∈ _locations st) by (apply Hitems; by left).
    assert (Hin : name ∈ (_locations st).*1)
      by by apply (list_elem_of_fmap_2 fst _ (name, None)).
    destruct (IH (install name st))
      as (Hinv' & Hkept & news & msgs & Hbs & Hout & Hnews & Hmsgs).
    { by apply install_inv. }
    { done. }
    { done. }
    { intros e He. cbn. rewrite elem_of_dict_set by done. right.
      split; [apply Hitems; by right|].
      intros <-. destruct Hname. by apply (list_elem_of_fmap_2 fst _ e). }
    split_and!; [done| |].
    + intros [k v] He Hsome. apply Hkept; [|done].
      cbn. rewrite elem_of_dict_set by done. right. split; [done|].
      cbn in *. intros ->. destruct Hsome as [n ->].
      by pose proof (dict_functional _ _ _ _ Hkeys He Hhere).
    + eexists (_ :: news), msgs. split_and!.
      * rewrite Hbs. cbn. by rewrite <-(assoc_L (++)).
      * by rewrite Hout.
      * intros b [->|Hb]%elem_of_cons; [by left|]. right. by apply Hnews.
      * intros name' n' [[=]|Hin']%elem_of_cons. by eapply Hmsgs.
Qed.

Lemma disable_loop_inv items : ∀ st,
  watch_inv st →
  NoDup items.*1 →
  (∀ e, e ∈ items → e ∈ _locations st) →
  watch_inv (disable_loop items st).2.
Proof.
  induction items as [|[name [n|]] rest IH]; intros st Hinv Hnodup Hitems; [done| |].
  - rewrite fmap_cons, NoDup_cons in Hnodup. destruct Hnodup as [Hname Hnodup].
    rewrite disable_loop_cons_Some.
    destruct (find_breakpoint n (breakpoints st)) as [b|]; [|done].
    pose proof (watch_inv_keys _ Hinv) as Hkeys.
    assert (Hhere : (name, Some n) ∈ _locations st) by (apply Hitems; by left).
    apply IH; [by apply uninstall_inv|done|].
    intros e He. cbn. rewrite elem_of_dict_set; [|done|].
    + right. split; [apply Hitems; by right|].
      intros <-. destruct Hname. by apply (list_elem_of_fmap_2 fst _ e).
    + by apply (list_elem_of_fmap_2 fst _ (name, Some n)).
  - rewrite fmap_cons, NoDup_cons in Hnodup. destruct Hnodup as [Hname Hnodup].
    rewrite disable_loop_cons_None. apply IH; [done..|].
    intros e He. apply Hitems. by right.
Qed.

Lemma disable_inv st : watch_inv st → watch_inv (disable st).2.
Proof.
  intros Hinv. unfold disable. rewrite bind_run, gets_run.
  apply disable_loop_inv; [done|by apply watch_inv_keys|done].
Qed.

(** [enable] keeps the invariant and only adds breakpoints, each for an
    entry that was not watched. *)
Lemma enable_inv st :
  watch_inv st →
  watch_inv (enable st).2 ∧
  ∃ news, breakpoints (enable st).2 = (breakpoints st ++ news)%list ∧
          ∀ b, b ∈ news → (location b, None) ∈ _locations st.
Proof.
  intros Hinv. rewrite enable_run.
  destruct (_keylog_file st) as [k|] eqn:Hk.
  - destruct (enable_loop_inv (_locations st) st)
      as (Hinv' & _ & news & msgs & Hbs & _ & Hnews & _);
      [done|by rewrite Hk|by apply watch_inv_keys|done|].
    eauto.
  - destruct (create_shape (keylog_filename st) st) as [[e ->]|[files ->]].
    + split; [done|]. exists []. rewrite app_nil_r.
      split; [done|by intros ? ?%elem_of_nil].
    + cbn zeta.
      match goal with |- context [enable_loop ?i ?s] =>
        destruct (enable_loop_inv i s)
          as (Hinv' & _ & news & msgs & Hbs & _ & Hnews & _) end.
      * by apply (watch_inv_ext st).
      * done.
      * cbn. by apply watch_inv_keys.
      * done.
      * cbn in Hbs. eauto.
Qed.

Lemma run_calls_inv calls : ∀ st, watch_inv st → watch_inv (run_calls calls st).
Proof.
  induction calls as [|[] calls IH]; intros st Hinv; [done| |]; cbn; apply IH.
  - by apply enable_inv.
  - by apply disable_inv.
Qed.

Lemma length_filter_unique {A} (P : A → Prop) `{!∀ x, Decision (P x)} (l : list A) :
  NoDup l →
  (∀ x y, x ∈ l → y ∈ l → P x → P y → x = y) →
  (length (filter P l) ≤ 1)%nat.
Proof.
  induction l as [|x l IH]; [cbn; lia|].
  rewrite NoDup_cons. intros [Hx Hl] Hsame.
  rewrite filter_cons. case_decide as HP.
  - assert (filter P l = []) as ->; [|cbn; lia].
    apply elem_of_nil_inv. intros y [HPy Hy]%list_elem_of_filter.
    destruct Hx. rewrite (Hsame x y); [done|by left|by right|done..].
  - apply IH; [done|]. intros y z Hy Hz. apply Hsame; by right.
Qed.

(** Under the invariant a symbol has at most one active breakpoint. *)
Lemma watchers_at_most_one st name :
  watch_inv st → (length (watchers name st) ≤ 1)%nat.
Proof.
  intros Hinv. pose proof (watch_inv_keys _ Hinv) as Hkeys.
  destruct Hinv as [_ Hnum _ _ Hinst _]. unfold watchers.
  apply length_filter_unique; [by apply NoDup_fmap_1 in Hnum|].
  intros b1 b2 H1 H2 Hloc1 Hloc2.
  eapply NoDup_fmap_eq; [exact Hnum|done..|].
  pose proof (Hinst _ H1) as H1'. pose proof (Hinst _ H2) as H2'.
  rewrite Hloc1 in H1'. rewrite Hloc2 in H2'.
  by pose proof (dict_functional _ _ _ _ Hkeys H1' H2') as [= ->].
Qed.

(** C7. The watch-set invariant.  After any sequence of [enable()] and
    [disable()] calls from the initial state, every symbol has at most one
    active entry breakpoint in gdb's table, and none when its entry in the
    watch set is [None]; the watch set has exactly the five symbols.  For a
    symbol that is watched, [enable()] returns normally, prints that the
    breakpoint is already active, and leaves the entry and the symbol's
    breakpoint as they are.  [enable()] deletes nothing and installs
    breakpoints only for symbols whose entry was [None]. *)
Theorem watch_set_invariant (environ : gmap string string) (files : gmap string node)
    (thread : bool) (calls : list call) :
  let st := run_calls calls (init environ files thread) in
  (∀ name, (length (watchers name st) ≤ 1)%nat) ∧
  (∀ name, (name, None) ∈ _locations st → watchers name st = []) ∧
  (_locations st).*1 = symbols ∧
  (∀ name n,
     (name, Some n) ∈ _locations st →
     ∃ st' news msgs,
       enable st = (Return (), st') ∧
       (name, Some n) ∈ _locations st' ∧
       watchers name st' = watchers name st ∧
       breakpoints st' = (breakpoints st ++ news)%list ∧
       stdout st' = (stdout st ++ msgs)%list ∧
       already_active name ∈ msgs) ∧
  (∃ news,
     breakpoints (enable st).2 = (breakpoints st ++ news)%list ∧
     ∀ b, b ∈ news → (location b, None) ∈ _locations st).
Proof.
  intros st.
  assert (Hinv : watch_inv st) by apply run_calls_inv, watch_inv_init.
  pose proof (watch_inv_keys _ Hinv) as Hkeys.
  split_and!.
  - intros name. by apply watchers_at_most_one.
  - intros name Hnone. apply elem_of_nil_inv.
    intros b [Hloc Hb]%list_elem_of_filter.
    pose proof (inv_installed _ Hinv b Hb) as Hb'. rewrite Hloc in Hb'.
    by pose proof (dict_functional _ _ _ _ Hkeys Hb' Hnone).
  - apply Hinv.
  - intros name n Hname.
    assert (Hkl : is_Some (_keylog_file st)).
    { apply (inv_session _ Hinv).
      destruct (inv_watched _ Hinv _ _ Hname) as (b & Hb & _).
      intros Hnil. rewrite Hnil in Hb. by apply elem_of_nil in Hb. }
    destruct (enable_loop_inv (_locations st) st Hinv Hkl Hkeys)
      as (_ & Hkept & news & msgs & Hbs & Hout & Hnews & Hmsgs); [done|].
    pose proof (enable_loop_frame (_locations st) st) as (Hret & _).
    assert (Henable : enable st = enable_loop (_locations st) st).
    { rewrite enable_run. by destruct Hkl as [k ->]. }
    rewrite <-Henable in *.
    destruct (enable st) as [r st'] eqn:Hst'. cbn [fst snd] in *. subst r.
    exists st', news, msgs. split_and!; [done|by apply Hkept|..|done|done|by eapply Hmsgs].
    unfold watchers. rewrite Hbs, filter_app.
    assert (filter (λ b, location b = name) news = []) as ->; [|by rewrite app_nil_r].
    apply elem_of_nil_inv. intros b [Hloc Hb]%list_elem_of_filter.
    specialize (Hnews b Hb). rewrite Hloc in Hnews.
    by pose proof (dict_functional _ _ _ _ Hkeys Hnews Hname).
  - by apply enable_inv.
Qed.

Lemma watch_set_invariant_witness :
  (length (watchers "SSL_read"
             (run_calls [Enable; Disable; Enable] (init ∅ ∅ true))) ≤ 1)%nat ∧
  ∃ st' news msgs,
    enable (run_calls [Enable; Disable; Enable] (init ∅ ∅ true)) = (Return (), st') ∧
    ("SSL_read", Some 9%nat) ∈ _locations st' ∧
    watchers "SSL_read" st'
    = watchers "SSL_read" (run_calls [Enable; Disable; Enable] (init ∅ ∅ true)) ∧
    breakpoints st'
    = (breakpoints (run_calls [Enable; Disable; Enable] (init ∅ ∅ true)) ++ news)%list ∧
    stdout st'
    = (stdout (run_calls [Enable; Disable; Enable] (init ∅ ∅ true)) ++ msgs)%list ∧
    already_active "SSL_read" ∈ msgs.
Proof.
  pose proof (watch_set_invariant ∅ ∅ true [Enable; Disable; Enable]) as H.
  cbv zeta in H. destruct H as (Hone & _ & _ & Hwatched & _).
  split; [exact (Hone "SSL_read")|].
  apply Hwatched.
  apply (bool_decide_unpack _). vm_compute. exact I.
Defined.

(** * Further properties *)

(** ** The hexadecimal rendering *)

Lemma unhex_fmt_02X x s :
  unhex (fmt_02X x +:+ s)
  = match unhex s with Some data => Some (x :: data) | None => None end.
Proof. destruct x; reflexivity. Qed.

(** X1. The rendering of [_read_as_hex] loses nothing: decoding the hex
    string gives the bytes back, so two byte strings with the same rendering
    are equal. *)
Theorem hex_join_round_trip (data : list byte) :
  unhex (hex_join data) = Some data ∧
  ∀ data', hex_join data = hex_join data' → data = data'.
Proof.
  assert (Hdec : ∀ d, unhex (hex_join d) = Some d).
  { induction d as [|x d IH]; [done|].
    cbn [hex_join]. by rewrite unhex_fmt_02X, IH. }
  split; [done|].
  intros data' Heq. apply (f_equal unhex) in Heq.
  rewrite !Hdec in Heq. by injection Heq.
Qed.

Lemma read_memory_exact mem size : ∀ addr,
  match read_memory mem addr size with
  | Return data =>
      length data = size ∧
      ∀ i, (i < size)%nat → mem (addr + Z.of_nat i) = data !! i
  | Raise e =>
      e = MemoryError ∧ ∃ i, (i < size)%nat ∧ mem (addr + Z.of_nat i) = None
  end.
Proof.
  induction size as [|n IH]; intros addr; cbn [read_memory].
  - split; [done|]. intros i Hi. lia.
  - destruct (mem addr) as [b|] eqn:Hb.
    + specialize (IH (addr + 1)).
      destruct (read_memory mem (addr + 1) n) as [rest|e]; cbn.
      * destruct IH as [Hlen Hrest]. split; [by rewrite Hlen|].
        intros [|i] Hi; cbn.
        -- by rewrite Z.add_0_r.
        -- rewrite <-Hrest by lia. f_equal. lia.
      * destruct IH as [-> (i & Hi & Hnone)]. split; [done|].
        exists (S i). split; [lia|]. rewrite <-Hnone. f_equal. lia.
    + split; [done|]. exists 0%nat. split; [lia|]. by rewrite Z.add_0_r.
Qed.

(** X2. [_read_as_hex] is all or nothing.  It returns the rendering of
    exactly the [size] bytes that the inferior holds from the address of the
    value upwards, in address order, as [2 * size] characters; if one of these
    bytes cannot be read it raises [gdb.MemoryError], and never returns a
    shorter string. *)
Theorem _read_as_hex_exact (mem : inferior) (value : Value) (size : nat) :
  match _read_as_hex mem value size with
  | Return h =>
      ∃ data, h = hex_join data ∧ length data = size ∧
              String.length h = (2 * size)%nat ∧
              ∀ i, (i < size)%nat → mem (address value + Z.of_nat i) = data !! i
  | Raise e =>
      e = MemoryError ∧
      ∃ i, (i < size)%nat ∧ mem (address value + Z.of_nat i) = None
  end.
Proof.
  unfold _read_as_hex. cbn zeta.
  pose proof (read_memory_exact mem size (address value)) as H.
  destruct (read_memory mem (address value) size) as [data|e]; cbn; [|done].
  destruct H as [Hlen Hbytes]. exists data.
  by rewrite hex_join_length, Hlen.
Qed.

(** ** Order of the reads in the extraction *)

Lemma _read_as_hex_unreadable mem value size i :
  (i < size)%nat →
  mem (address value + Z.of_nat i) = None →
  _read_as_hex mem value size = Raise MemoryError.
Proof.
  intros Hi Hnone. unfold _read_as_hex. cbn zeta.
  pose proof (read_memory_exact mem size (address value)) as H.
  destruct (read_memory mem (address value) size) as [data|e]; [|by destruct H as [-> _]].
  destruct H as [Hlen Hbytes].
  specialize (Hbytes i Hi). rewrite Hnone in Hbytes.
  symmetry in Hbytes. apply lookup_ge_None in Hbytes. lia.
Qed.

(** X3. The master key is read before [s3] is looked at, and only behind a
    session with a positive key length.  For a session that is not null and
    has a positive key length, an unreadable byte among the 48 of the master
    key makes [get_keylog_line] raise [gdb.MemoryError] whatever [s3] is, null
    included; with a null session, or a key length of at most 0, the call
    reads no memory at all: its outcome is the same over any two
    inferiors. *)
Theorem get_keylog_line_read_order (mem : inferior) (ssl session : Value)
    (session_val : Z)
    (Hsession : getitem ssl "session" = Return session)
    (Hsession_val : fetch session = Return session_val) :
  (session_val = 0 →
   ∀ mem', get_keylog_line mem ssl = get_keylog_line mem' ssl) ∧
  (∀ mkl len,
     getitem session "master_key_length" = Return mkl →
     fetch mkl = Return len →
     (len ≤ 0 → ∀ mem', get_keylog_line mem ssl = get_keylog_line mem' ssl) ∧
     (∀ master_key i,
        session_val ≠ 0 → len > 0 →
        getitem session "master_key" = Return master_key →
        (i < 48)%nat →
        mem (address master_key + Z.of_nat i) = None →
        get_keylog_line mem ssl = Raise MemoryError)).
Proof.
  assert (Hnone : ∀ m, _ssl_get_master_key m ssl = Return None →
            get_keylog_line m ssl
            = (getitem ssl "s3" ≫= λ s3, fetch s3 ≫= λ _ : Z, Return None)).
  { intros m Hm. unfold get_keylog_line. rewrite Hm. cbn [mbind result_bind].
    destruct (getitem ssl "s3") as [s3|]; [|done]. cbn [mbind result_bind].
    destruct (fetch s3) as [s3_val|]; [|done]. cbn [mbind result_bind].
    by case_bool_decide. }
  split.
  - intros -> mem'. rewrite !Hnone; [done|..];
      unfold _ssl_get_master_key; rewrite Hsession; cbn [mbind result_bind];
      by rewrite Hsession_val.
  - intros mkl len Hmkl Hlen. split.
    + intros Hle mem'. rewrite !Hnone; [done|..];
        unfold _ssl_get_master_key; rewrite Hsession; cbn [mbind result_bind];
        rewrite Hsession_val; cbn [mbind result_bind];
        (case_bool_decide; [|done]); rewrite Hmkl; cbn [mbind result_bind];
        rewrite Hlen; cbn [mbind result_bind]; by rewrite bool_decide_eq_false_2 by lia.
    + intros master_key i Hne Hpos Hmk Hi Hbyte.
      unfold get_keylog_line, _ssl_get_master_key.
      rewrite Hsession. cbn [mbind result_bind].
      rewrite Hsession_val. cbn [mbind result_bind].
      rewrite bool_decide_eq_true_2 by done.
      rewrite Hmkl. cbn [mbind result_bind]. rewrite Hlen. cbn [mbind result_bind].
      rewrite bool_decide_eq_true_2 by done.
      rewrite Hmk. cbn [mbind result_bind].
      by rewrite (_read_as_hex_unreadable mem master_key 48 i).
Qed.

Lemma get_keylog_line_read_order_witness :
  get_keylog_line (λ _, None) (connection 92 48 100 0 200) = Raise MemoryError.
Proof.
  destruct (get_keylog_line_read_order (λ _, None) (connection 92 48 100 0 200)
              _ 92 eq_refl eq_refl) as [_ H].
  destruct (H (Val (behind 92 48) (92 + 8) []) 48 eq_refl eq_refl) as [_ H'].
  apply (H' (Val (Raise GdbError) 100 []) 0%nat);
    [lia | lia | reflexivity | lia | reflexivity].
Defined.

(** ** What a notification can change *)

Lemma notify_outcome self cr mk st :
  Keylog.notify self cr mk st =
  match heap st !! self with
  | None => (Raise Dangling, st)
  | Some k =>
      if bool_decide (cr ∉ written_items k) then
        match encode_ascii (keylog_line cr mk) with
        | Raise e => (Raise e, st)
        | Return _ =>
            if closed (keylog_file k) then (Raise ValueError, st)
            else (Return (), logged self k cr mk st)
        end
      else (Return (), st)
  end.
Proof.
  unfold Keylog.notify. rewrite bind_run. unfold deref.
  destruct (heap st !! self) as [k|]; [|done].
  case_bool_decide; [|done]. rewrite bind_run, lift_run.
  destruct (encode_ascii (keylog_line cr mk)) as [data|e] eqn:Henc; [|done].
  apply encode_ascii_returns in Henc as ->.
  rewrite bind_run. unfold write. by destruct (closed (keylog_file k)).
Qed.

(** X4. A notification only ever appends.  Whatever its arguments and
    whether it returns or raises, [notify] leaves every other Keylog object,
    every other file and every global as they are; the Keylog it is called on
    keeps its file object, its fingerprints can only grow, by [cr] at most,
    and the bytes already in its file stay in place as a prefix. *)
Theorem notify_append_only (self : nat) (cr mk : string) (st : state) :
  let st' := (Keylog.notify self cr mk st).2 in
  length (heap st') = length (heap st) ∧
  (∀ r, r ≠ self → heap st' !! r = heap st !! r) ∧
  (heap st !! self = None → st' = st) ∧
  (∀ k, heap st !! self = Some k →
     ∃ k' suffix,
       heap st' !! self = Some k' ∧
       keylog_file k' = keylog_file k ∧
       written_items k ⊆ written_items k' ∧
       written_items k' ⊆ {[cr]} ∪ written_items k ∧
       log_of k' st' = (log_of k st ++ suffix)%list ∧
       ∀ other, other ≠ name (keylog_file k) → fs st' !! other = fs st !! other) ∧
  breakpoints st' = breakpoints st ∧
  finish_breakpoints st' = finish_breakpoints st ∧
  _locations st' = _locations st ∧
  _keylog_file st' = _keylog_file st ∧
  keylog_filename st' = keylog_filename st ∧
  stdout st' = stdout st.
Proof.
  intros st'. subst st'. rewrite notify_outcome.
  assert (Hsame : ∀ k, heap st !! self = Some k →
            ∃ k' suffix,
              heap st !! self = Some k' ∧ keylog_file k' = keylog_file k ∧
              written_items k ⊆ written_items k' ∧
              written_items k' ⊆ {[cr]} ∪ written_items k ∧
              log_of k' st = (log_of k st ++ suffix)%list ∧
              ∀ other, other ≠ name (keylog_file k) → fs st !! other = fs st !! other).
  { intros k Hk. exists k, []. rewrite app_nil_r. split_and!; try done.
    apply union_subseteq_r. }
  destruct (heap st !! self) as [k|] eqn:Hk; [|by split_and!].
  case_bool_decide as Hfresh;
    [|by cbn [snd]; split_and!; try done; rewrite Hk; apply Hsame].
  destruct (encode_ascii (keylog_line cr mk)) as [data|e];
    [|by cbn [snd]; split_and!; try done; rewrite Hk; apply Hsame].
  destruct (closed (keylog_file k));
    [by cbn [snd]; split_and!; try done; rewrite Hk; apply Hsame|].
  cbn [snd]. split_and!; try done.
  - cbn. by rewrite length_insert.
  - intros r Hr. cbn. by rewrite list_lookup_insert_ne.
  - intros k0 [= <-]. eexists _, _. split_and!.
    + by apply logged_heap.
    + done.
    + cbn. apply union_subseteq_r.
    + done.
    + by apply logged_log.
    + intros other Hother. cbn. by rewrite lookup_insert_ne.
Qed.

(** ** Finish breakpoints *)

Lemma finish_stop_outcome mem self st :
  SKLFinishBreakpoint.stop mem self st =
  match get_keylog_line mem (ssl_ptr self) with
  | Raise e => (Raise e, st)
  | Return None => (Return false, st)
  | Return (Some (cr, mk)) =>
      match key_listener self with
      | None => (Raise AttributeError, st)
      | Some k =>
          match Keylog.notify k cr mk st with
          | (Return _, st') => (Return false, st')
          | (Raise e, st') => (Raise e, st')
          end
      end
  end.
Proof.
  unfold SKLFinishBreakpoint.stop. rewrite bind_run, lift_run.
  destruct (get_keylog_line mem (ssl_ptr self)) as [[[cr mk]|]|e]; [|done..].
  rewrite bind_run. destruct (key_listener self) as [k|]; [|done].
  by destruct (Keylog.notify k cr mk st) as [[[]|e] st'].
Qed.

(** The state after a finish breakpoint has fired: unchanged, unless the
    extraction gave a pair whose client random the open Keylog of this
    breakpoint had not recorded. *)
Lemma finish_stop_state mem fb st :
  (SKLFinishBreakpoint.stop mem fb st).2 = st ∨
  ∃ r k cr mk,
    (SKLFinishBreakpoint.stop mem fb st).2 = logged r k cr mk st ∧
    key_listener fb = Some r ∧
    heap st !! r = Some k ∧
    (cr ∉ written_items k) ∧
    closed (keylog_file k) = false ∧
    get_keylog_line mem (ssl_ptr fb) = Return (Some (cr, mk)).
Proof.
  rewrite finish_stop_outcome.
  destruct (get_keylog_line mem (ssl_ptr fb)) as [[[cr mk]|]|e] eqn:Hline; [|by left..].
  destruct (key_listener fb) as [r|] eqn:Hr; [|by left].
  rewrite notify_outcome.
  destruct (heap st !! r) as [k|] eqn:Hk; [|by left].
  case_bool_decide as Hfresh; [|by left].
  destruct (encode_ascii (keylog_line cr mk)); [|by left].
  destruct (closed (keylog_file k)) eqn:Hopen; [by left|].
  right. by exists r, k, cr, mk.
Qed.

(** X5. A finish breakpoint never stops the inferior and never touches the
    breakpoints.  Whenever [SKLFinishBreakpoint.stop] returns, it returns
    [False]; when the extraction finds no key it returns with the state
    unchanged; when the extraction raises, the exception propagates with the
    state unchanged; and in every case the breakpoint table, the armed finish
    breakpoints, the watch set, the Keylog reference, the configured path and
    the number of Keylog objects are as before. *)
Theorem finish_stop_continues (mem : inferior) (self : SKLFinishBreakpoint) (st : state) :
  (∀ b st', SKLFinishBreakpoint.stop mem self st = (Return b, st') → b = false) ∧
  (get_keylog_line mem (ssl_ptr self) = Return None →
   SKLFinishBreakpoint.stop mem self st = (Return false, st)) ∧
  (∀ e, get_keylog_line mem (ssl_ptr self) = Raise e →
        SKLFinishBreakpoint.stop mem self st = (Raise e, st)) ∧
  let st' := (SKLFinishBreakpoint.stop mem self st).2 in
  breakpoints st' = breakpoints st ∧
  finish_breakpoints st' = finish_breakpoints st ∧
  _locations st' = _locations st ∧
  _keylog_file st' = _keylog_file st ∧
  keylog_filename st' = keylog_filename st ∧
  length (heap st') = length (heap st).
Proof.
  split_and!.
  - rewrite finish_stop_outcome. intros b st'.
    destruct (get_keylog_line mem (ssl_ptr self)) as [[[cr mk]|]|e];
      [|by intros [= <- _]|by intros [=]].
    destruct (key_listener self) as [k|]; [|by intros [=]].
    destruct (Keylog.notify k cr mk st) as [[[]|e] st1]; by intros [=].
  - intros Hnone. by rewrite finish_stop_outcome, Hnone.
  - intros e He. by rewrite finish_stop_outcome, He.
  - destruct (finish_stop_state mem self st) as [->|(r & k & cr & mk & -> & _)];
      [done|].
    cbn. by rewrite length_insert.
Qed.

Lemma stop_each_known r k cr st fires :
  heap st !! r = Some k →
  cr ∈ written_items k →
  Forall (λ f, key_listener f.2 = Some r ∧
               ∃ mk, get_keylog_line f.1 (ssl_ptr f.2) = Return (Some (cr, mk))) fires →
  stop_each fires st = (Return (), st).
Proof.
  intros Hk Hin. induction 1 as [|[mem fb] fires [Hr [mk Hline]] _ IH]; [done|].
  cbn [stop_each]. rewrite bind_run, finish_stop_outcome.
  cbn [fst snd] in *. rewrite Hline, Hr.
  by rewrite (notify_known r k st).
Qed.

(** X6. However many finish breakpoints fire for a connection, its key is
    logged once.  On an open Keylog that has not recorded [cr], if finish
    breakpoints listening to it fire one after the other and each extracts
    the client random [cr], then all of them return and the file gains exactly
    one line, that of the first one. *)
Theorem finish_breakpoints_log_once (r : nat) (k : Keylog) (st : state)
    (cr mk : string) (mem : inferior) (fb : SKLFinishBreakpoint)
    (fires : list (inferior * SKLFinishBreakpoint))
    (Hk : heap st !! r = Some k)
    (Hopen : closed (keylog_file k) = false)
    (Hfresh : cr ∉ written_items k)
    (Hlistener : key_listener fb = Some r)
    (Hline : get_keylog_line mem (ssl_ptr fb) = Return (Some (cr, mk)))
    (Hfires : Forall (λ f, key_listener f.2 = Some r ∧
                           ∃ mk', get_keylog_line f.1 (ssl_ptr f.2)
                                  = Return (Some (cr, mk'))) fires) :
  ∃ st' k',
    stop_each ((mem, fb) :: fires) st = (Return (), st') ∧
    heap st' !! r = Some k' ∧
    written_items k' = {[cr]} ∪ written_items k ∧
    log_of k' st' = (log_of k st ++ String.list_byte_of_string (keylog_line cr mk))%list.
Proof.
  destruct (get_keylog_line_returns _ _ _ _ Hline) as (crb & mkb & -> & -> & _).
  exists (logged r k (hex_join crb) (hex_join mkb) st). eexists.
  split_and!.
  - cbn [stop_each]. rewrite bind_run, finish_stop_outcome, Hline, Hlistener.
    rewrite (notify_fresh r k st) by auto using hex_join_ascii.
    eapply stop_each_known; [by apply logged_heap| |done].
    cbn. set_solver.
  - by apply logged_heap.
  - done.
  - by apply logged_log.
Qed.

Lemma finish_breakpoints_log_once_witness :
  ∃ st' k',
    stop_each [(ex_mem, ex_finish_breakpoint); (ex_mem, ex_finish_breakpoint)] ex_state
    = (Return (), st') ∧
    heap st' !! 0%nat = Some k' ∧
    written_items k' = {[ex_cr]} ∪ written_items ex_keylog ∧
    log_of k' st'
    = (log_of ex_keylog ex_state
       ++ String.list_byte_of_string (keylog_line ex_cr ex_mk))%list.
Proof.
  apply (finish_breakpoints_log_once 0 ex_keylog ex_state ex_cr ex_mk ex_mem
           ex_finish_breakpoint [(ex_mem, ex_finish_breakpoint)]
           eq_refl eq_refl (not_elem_of_empty _) eq_refl eq_refl).
  constructor; [|constructor]. split; [reflexivity|]. exists ex_mk. reflexivity.
Defined.

(** ** Entry breakpoints *)

Lemma entry_stop_outcome read_var n st :
  SKLBreakpoint.stop read_var n st =
  match read_var with
  | Raise e => (Raise e, st)
  | Return ssl =>
      match find_breakpoint n (breakpoints st) with
      | None => (Raise RuntimeError, st)
      | Some b =>
          (Return false,
           set_breakpoints (SKLBreakpoint.bump_ignore_count n <$> breakpoints st)
             (set_finish_breakpoints
                (finish_breakpoints st
                 ++ [{| ssl_ptr := ssl; key_listener := bp_key_listener b |}]) st))
      end
  end.
Proof.
  unfold SKLBreakpoint.stop. rewrite bind_run, lift_run.
  destruct read_var as [ssl|e]; [|done].
  rewrite bind_run. unfold breakpoint_of.
  by destruct (find_breakpoint n (breakpoints st)).
Qed.

Lemma find_breakpoint_fmap (f : SKLBreakpoint → SKLBreakpoint) n table :
  (∀ b, number (f b) = number b) →
  find_breakpoint n (f <$> table) = f <$> find_breakpoint n table.
Proof.
  intros Hf. induction table as [|b table IH]; [done|].
  cbn [fmap list_fmap find_breakpoint]. rewrite Hf.
  by case_bool_decide.
Qed.

Lemma fmap_fmap_same {A} (g : SKLBreakpoint → A) (f : SKLBreakpoint → SKLBreakpoint)
    (table : list SKLBreakpoint) :
  (∀ b, g (f b) = g b) → g <$> (f <$> table) = g <$> table.
Proof.
  intros Hf. rewrite <-list_fmap_compose. apply list_fmap_ext. intros _ b _. apply Hf.
Qed.

Lemma bump_ignore_count_number n b : number (SKLBreakpoint.bump_ignore_count n b) = number b.
Proof. unfold SKLBreakpoint.bump_ignore_count. by case_bool_decide. Qed.

Lemma bump_ignore_count_location n b :
  location (SKLBreakpoint.bump_ignore_count n b) = location b.
Proof. unfold SKLBreakpoint.bump_ignore_count. by case_bool_decide. Qed.

Lemma bump_ignore_count_listener n b :
  bp_key_listener (SKLBreakpoint.bump_ignore_count n b) = bp_key_listener b.
Proof. unfold SKLBreakpoint.bump_ignore_count. by case_bool_decide. Qed.

Lemma bump_ignore_count_hit_count n b :
  hit_count (SKLBreakpoint.bump_ignore_count n b) = hit_count b.
Proof. unfold SKLBreakpoint.bump_ignore_count. by case_bool_decide. Qed.

(** X7. An entry hit arms one finish breakpoint and does nothing else of
    note.  For a breakpoint of gdb's table, [SKLBreakpoint.stop] returns
    [False]; it appends exactly one finish breakpoint, bound to the [SSL]
    pointer read from the frame and to the breakpoint's own listener; it adds
    one to the ignore count of this breakpoint and leaves the numbers,
    locations, hit counts and listeners of all breakpoints, the watch set,
    the Keylog objects and the files as they are.  If the parameter cannot be
    read, the exception propagates and nothing is armed. *)
Theorem entry_stop_arms_one (n : nat) (b : SKLBreakpoint) (st : state)
    (read_var : result Value)
    (Hb : find_breakpoint n (breakpoints st) = Some b) :
  (∀ e, read_var = Raise e → SKLBreakpoint.stop read_var n st = (Raise e, st)) ∧
  (∀ ssl, read_var = Return ssl →
     ∃ st' b',
       SKLBreakpoint.stop read_var n st = (Return false, st') ∧
       finish_breakpoints st'
       = (finish_breakpoints st
          ++ [{| ssl_ptr := ssl; key_listener := bp_key_listener b |}])%list ∧
       find_breakpoint n (breakpoints st') = Some b' ∧
       ignore_count b' = S (ignore_count b) ∧
       number <$> breakpoints st' = number <$> breakpoints st ∧
       location <$> breakpoints st' = location <$> breakpoints st ∧
       hit_count <$> breakpoints st' = hit_count <$> breakpoints st ∧
       bp_key_listener <$> breakpoints st' = bp_key_listener <$> breakpoints st ∧
       _locations st' = _locations st ∧
       _keylog_file st' = _keylog_file st ∧
       heap st' = heap st ∧
       fs st' = fs st).
Proof.
  rewrite entry_stop_outcome, Hb. split.
  - by intros e ->.
  - intros ssl ->. eexists _, _. split; [done|]. cbn.
    rewrite (find_breakpoint_fmap _ _ _ (bump_ignore_count_number n)), Hb.
    split_and!; try done.
    + unfold SKLBreakpoint.bump_ignore_count.
      apply find_breakpoint_Some in Hb as [_ Hn].
      by rewrite bool_decide_eq_true_2.
    + apply fmap_fmap_same, bump_ignore_count_number.
    + apply fmap_fmap_same, bump_ignore_count_location.
    + apply fmap_fmap_same, bump_ignore_count_hit_count.
    + apply fmap_fmap_same, bump_ignore_count_listener.
Qed.

Lemma entry_stop_arms_one_witness :
  ∃ st' b',
    SKLBreakpoint.stop (Return ex_ssl) 4 ex_running = (Return false, st') ∧
    finish_breakpoints st'
    = (finish_breakpoints ex_running
       ++ [{| ssl_ptr := ex_ssl; key_listener := Some 0%nat |}])%list ∧
    find_breakpoint 4 (breakpoints st') = Some b' ∧
    ignore_count b' = 1%nat.
Proof.
  assert (Hb : find_breakpoint 4 (breakpoints ex_running)
               = Some {| number := 4; location := "SSL_read"; hit_count := 0;
                         ignore_count := 0; bp_key_listener := Some 0%nat |})
    by (vm_compute; reflexivity).
  destruct (entry_stop_arms_one 4 _ ex_running (Return ex_ssl) Hb) as [_ H].
  destruct (H ex_ssl eq_refl) as (st' & b' & H1 & H2 & H3 & H4 & _).
  exists st', b'. split_and!; [exact H1 | exact H2 | exact H3 | exact H4].
Defined.

(** ** Events *)

Lemma count_hit_number n b : number (count_hit n b) = number b.
Proof. unfold count_hit. by case_bool_decide. Qed.

Lemma count_hit_location n b : location (count_hit n b) = location b.
Proof. unfold count_hit. by case_bool_decide. Qed.

Lemma count_hit_listener n b : bp_key_listener (count_hit n b) = bp_key_listener b.
Proof. unfold count_hit. by case_bool_decide. Qed.

Lemma run_event_Hit n ssl st b :
  find_breakpoint n (breakpoints st) = Some b →
  run_event (Hit n (Return ssl)) st
  = set_breakpoints
      (SKLBreakpoint.bump_ignore_count n <$> (count_hit n <$> breakpoints st))
      (set_finish_breakpoints
         (finish_breakpoints st
          ++ [{| ssl_ptr := ssl; key_listener := bp_key_listener b |}]) st).
Proof.
  intros Hb. cbn [run_event]. rewrite Hb, entry_stop_outcome. cbn [breakpoints set_breakpoints].
  rewrite (find_breakpoint_fmap _ _ _ (count_hit_number n)), Hb. cbn.
  by rewrite count_hit_listener.
Qed.

Lemma run_event_Finish i mem fb st r k cr mk :
  finish_breakpoints st !! i = Some fb →
  key_listener fb = Some r →
  heap st !! r = Some k →
  closed (keylog_file k) = false →
  cr ∉ written_items k →
  get_keylog_line mem (ssl_ptr fb) = Return (Some (cr, mk)) →
  run_event (Finish i mem) st
  = set_finish_breakpoints (base.delete i (finish_breakpoints st)) (logged r k cr mk st).
Proof.
  intros Hfb Hr Hk Hopen Hfresh Hline. cbn [run_event]. rewrite Hfb.
  rewrite finish_stop_outcome, Hline, Hr.
  destruct (get_keylog_line_returns _ _ _ _ Hline) as (crb & mkb & -> & -> & _).
  by rewrite (notify_fresh r k st) by auto using hex_join_ascii.
Qed.

(** X8. Each return reads the connection captured at its own entry.  Two
    entry hits, for connections A and then B, followed by the returns in the
    opposite order, B and then A, leave no finish breakpoint armed and append
    to the log the line with B's client random and master key and then the
    line with A's, each read through the handle captured at the matching
    entry. *)
Theorem watcher_scoping (st : state) (r : nat) (k : Keylog)
    (nA nB : nat) (bA bB : SKLBreakpoint) (sslA sslB : Value) (memA memB : inferior)
    (crA mkA crB mkB : string)
    (HbA : find_breakpoint nA (breakpoints st) = Some bA)
    (HbB : find_breakpoint nB (breakpoints st) = Some bB)
    (HlA : bp_key_listener bA = Some r)
    (HlB : bp_key_listener bB = Some r)
    (Hk : heap st !! r = Some k)
    (Hopen : closed (keylog_file k) = false)
    (HfreshA : crA ∉ written_items k)
    (HfreshB : crB ∉ written_items k)
    (Hne : crA ≠ crB)
    (HA : get_keylog_line memA sslA = Return (Some (crA, mkA)))
    (HB : get_keylog_line memB sslB = Return (Some (crB, mkB))) :
  let i := length (finish_breakpoints st) in
  let st' := run_events [Hit nA (Return sslA); Hit nB (Return sslB);
                         Finish (S i) memB; Finish i memA] st in
  finish_breakpoints st' = finish_breakpoints st ∧
  ∃ k', heap st' !! r = Some k' ∧
        written_items k' = {[crA]} ∪ ({[crB]} ∪ written_items k) ∧
        log_of k' st'
        = (log_of k st
           ++ String.list_byte_of_string (keylog_line crB mkB)
           ++ String.list_byte_of_string (keylog_line crA mkA))%list.
Proof.
  intros i st'. subst st'. cbn [run_events foldl].
  rewrite (run_event_Hit nA sslA st bA HbA), HlA.
  set (st1 := set_breakpoints _ _).
  assert (HbB1 : ∃ b, find_breakpoint nB (breakpoints st1) = Some b ∧
                      bp_key_listener b = Some r).
  { unfold st1. cbn [breakpoints set_breakpoints].
    rewrite (find_breakpoint_fmap _ _ _ (bump_ignore_count_number nA)).
    rewrite (find_breakpoint_fmap _ _ _ (count_hit_number nA)), HbB.
    eexists. split; [done|]. cbn.
    by rewrite bump_ignore_count_listener, count_hit_listener. }
  destruct HbB1 as (bB1 & HbB1 & HlB1).
  rewrite (run_event_Hit nB sslB st1 bB1 HbB1), HlB1.
  set (st2 := set_breakpoints _ _).
  set (fA := {| ssl_ptr := sslA; key_listener := Some r |}).
  set (fB := {| ssl_ptr := sslB; key_listener := Some r |}).
  assert (Hf2 : finish_breakpoints st2 = ((finish_breakpoints st ++ [fA]) ++ [fB])%list)
    by done.
  assert (Hi : length (finish_breakpoints st ++ [fA]) = S i)
    by (rewrite length_app; cbn; lia).
  rewrite (run_event_Finish (S i) memB fB st2 r k crB mkB);
    [|rewrite Hf2; by apply list_lookup_middle|done..].
  set (k1 := {| keylog_file := keylog_file k;
                written_items := {[crB]} ∪ written_items k |}).
  set (st3 := set_finish_breakpoints _ _).
  assert (Hk3 : heap st3 !! r = Some k1) by by apply (logged_heap r k crB mkB st2).
  assert (Hf3 : finish_breakpoints st3 = (finish_breakpoints st ++ [fA])%list).
  { unfold st3. cbn [finish_breakpoints set_finish_breakpoints].
    rewrite Hf2, <-Hi.
    by rewrite (delete_middle (finish_breakpoints st ++ [fA]) [] fB), app_nil_r. }
  rewrite (run_event_Finish i memA fA st3 r k1 crA mkA);
    [|rewrite Hf3; by apply list_lookup_middle|done|done|done| |done].
  2: { cbn. by rewrite not_elem_of_union, not_elem_of_singleton. }
  split.
  - cbn [finish_breakpoints set_finish_breakpoints]. rewrite Hf3. unfold i.
    by rewrite (delete_middle (finish_breakpoints st) [] fA), app_nil_r.
  - eexists. split_and!.
    + by apply (logged_heap r k1 crA mkA st3).
    + done.
    + change (log_of ?k' (set_finish_breakpoints ?l ?s)) with (log_of k' s).
      rewrite (logged_log k1) by done.
      change (log_of k1 st3) with (log_of k1 (logged r k crB mkB st2)).
      rewrite (logged_log k) by done. by rewrite <-(assoc_L (++)).
Qed.

Lemma watcher_scoping_witness :
  ∃ k', heap (run_events [Hit 4 (Return ex_ssl); Hit 5 (Return ex_ssl2);
                          Finish 1 ex_mem2; Finish 0 ex_mem] ex_running) !! 0%nat
        = Some k' ∧
        written_items k' = {[ex_cr]} ∪ ({[ex_cr2]} ∪ written_items ex_keylog).
Proof.
  assert (HbA : find_breakpoint 4 (breakpoints ex_running) = Some ex_read_breakpoint)
    by (vm_compute; reflexivity).
  assert (HbB : find_breakpoint 5 (breakpoints ex_running) = Some ex_write_breakpoint)
    by (vm_compute; reflexivity).
  assert (Hk : heap ex_running !! 0%nat = Some ex_keylog) by (vm_compute; reflexivity).
  assert (Hne : ex_cr ≠ ex_cr2) by (vm_compute; discriminate).
  assert (HA : get_keylog_line ex_mem ex_ssl = Return (Some (ex_cr, ex_mk)))
    by (vm_compute; reflexivity).
  assert (HB : get_keylog_line ex_mem2 ex_ssl2 = Return (Some (ex_cr2, ex_mk2)))
    by (vm_compute; reflexivity).
  pose proof (watcher_scoping ex_running 0 ex_keylog 4 5 _ _ ex_ssl ex_ssl2
                ex_mem ex_mem2 ex_cr ex_mk ex_cr2 ex_mk2
                HbA HbB eq_refl eq_refl Hk eq_refl
                (not_elem_of_empty _) (not_elem_of_empty _) Hne HA HB) as H.
  cbv zeta in H. destruct H as [_ (k' & Hk' & Hitems & _)].
  exists k'. split; [exact Hk' | exact Hitems].
Defined.

(** ** Invariants of a session *)

Lemma watch_inv_fmap (f : SKLBreakpoint → SKLBreakpoint) st st' :
  (∀ b, number (f b) = number b) →
  (∀ b, location (f b) = location b) →
  _locations st' = _locations st →
  breakpoints st' = f <$> breakpoints st →
  next_number st' = next_number st →
  _keylog_file st' = _keylog_file st →
  watch_inv st → watch_inv st'.
Proof.
  intros Hnum Hloc Hl Hb Hn Hk [Hsym Hnodup Hnext Hwatched Hinst Hsess].
  split; rewrite ?Hl, ?Hb, ?Hn, ?Hk.
  - done.
  - by rewrite fmap_fmap_same.
  - intros b (b0 & -> & Hb0)%list_elem_of_fmap. rewrite Hnum. by apply Hnext.
  - intros name n Hname. destruct (Hwatched _ _ Hname) as (b & Hin & <- & <-).
    exists (f b). split_and!; [by apply list_elem_of_fmap_2|done..].
  - intros b (b0 & -> & Hb0)%list_elem_of_fmap. rewrite Hnum, Hloc. by apply Hinst.
  - intros Hne. apply Hsess. intros Hnil. by rewrite Hnil in Hne.
Qed.

Lemma session_inv_ext st st' :
  _locations st' = _locations st →
  breakpoints st' = breakpoints st →
  next_number st' = next_number st →
  _keylog_file st' = _keylog_file st →
  finish_breakpoints st' = finish_breakpoints st →
  length (heap st') = length (heap st) →
  session_inv st → session_inv st'.
Proof.
  intros Hl Hb Hn Hk Hf Hh [Hwatch Hsingle Hlisten Hfinish].
  split; rewrite ?Hb, ?Hk, ?Hf, ?Hh; [|done..].
  apply (watch_inv_ext st); [done..|by rewrite Hk|done].
Qed.

Lemma session_inv_init environ files thread : session_inv (init environ files thread).
Proof.
  split; [apply watch_inv_init|done|by intros ? ?%elem_of_nil..].
Qed.

Lemma enable_loop_more items : ∀ st,
  finish_breakpoints (enable_loop items st).2 = finish_breakpoints st ∧
  ∀ b, b ∈ breakpoints (enable_loop items st).2 →
       b ∈ breakpoints st ∨ bp_key_listener b = _keylog_file st.
Proof.
  induction items as [|[name [n|]] rest IH]; intros st; [by split; auto| |].
  - rewrite enable_loop_cons_Some.
    apply (IH (set_stdout (stdout st ++ [already_active name]) st)).
  - rewrite enable_loop_cons_None.
    destruct (IH (install name st)) as [-> Hbs]. split; [done|].
    intros b [Hb|Hb]%Hbs; [|by right].
    cbn in Hb. apply elem_of_app in Hb as [Hb| ->%list_elem_of_singleton]; auto.
Qed.

Lemma disable_loop_frame items : ∀ st,
  fs (disable_loop items st).2 = fs st ∧
  heap (disable_loop items st).2 = heap st ∧
  keylog_filename (disable_loop items st).2 = keylog_filename st ∧
  _keylog_file (disable_loop items st).2 = _keylog_file st ∧
  finish_breakpoints (disable_loop items st).2 = finish_breakpoints st ∧
  executed (disable_loop items st).2 = executed st ∧
  ∀ b, b ∈ breakpoints (disable_loop items st).2 → b ∈ breakpoints st.
Proof.
  induction items as [|[name [n|]] rest IH]; intros st; [by split_and!| |].
  - rewrite disable_loop_cons_Some.
    destruct (find_breakpoint n (breakpoints st)) as [b|]; [|by split_and!].
    destruct (IH (uninstall name n b st)) as (-> & -> & -> & -> & -> & -> & Hbs).
    split_and!; try done.
    intros b' Hb'%Hbs. cbn in Hb'. by apply list_elem_of_filter in Hb' as [_ ?].
  - rewrite disable_loop_cons_None. apply IH.
Qed.

Lemma disable_frame st :
  fs (disable st).2 = fs st ∧
  heap (disable st).2 = heap st ∧
  keylog_filename (disable st).2 = keylog_filename st ∧
  _keylog_file (disable st).2 = _keylog_file st ∧
  finish_breakpoints (disable st).2 = finish_breakpoints st ∧
  executed (disable st).2 = executed st ∧
  ∀ b, b ∈ breakpoints (disable st).2 → b ∈ breakpoints st.
Proof. unfold disable. rewrite bind_run, gets_run. apply disable_loop_frame. Qed.

Lemma disable_session st : session_inv st → session_inv (disable st).2.
Proof.
  intros [Hwatch Hsingle Hlisten Hfinish].
  destruct (disable_frame st) as (_ & Hheap & _ & Hkl & Hfb & _ & Hbs).
  split; rewrite ?Hheap, ?Hkl, ?Hfb; [by apply disable_inv|done| |done].
  intros b Hb%Hbs. by apply Hlisten.
Qed.

Lemma enable_loop_session st :
  session_inv st →
  _keylog_file st = Some 0%nat →
  session_inv (enable_loop (_locations st) st).2.
Proof.
  intros [Hwatch Hsingle Hlisten Hfinish] Hkl.
  destruct (enable_loop_inv (_locations st) st) as (Hwatch' & _);
    [done|by rewrite Hkl|by apply watch_inv_keys|done|].
  destruct (enable_loop_frame (_locations st) st) as (_ & _ & Hheap & _ & Hkl' & _).
  destruct (enable_loop_more (_locations st) st) as (Hfb & Hbs).
  split; rewrite ?Hheap, ?Hkl', ?Hfb; [done..| |done].
  intros b [Hb| ->]%Hbs; [by apply Hlisten|done].
Qed.

Lemma enable_session st : session_inv st → session_inv (enable st).2.
Proof.
  intros Hinv. rewrite enable_run.
  destruct (_keylog_file st) as [r|] eqn:Hkl.
  - apply enable_loop_session; [done|].
    pose proof (s_single _ Hinv) as Hsingle. rewrite Hkl in Hsingle.
    by destruct Hsingle as [-> _].
  - destruct (create_shape (keylog_filename st) st) as [[e ->]|[files ->]]; [done|].
    cbn zeta.
    pose proof (s_single _ Hinv) as Hsingle. rewrite Hkl in Hsingle.
    match goal with |- context [enable_loop ?i ?s] =>
      change i with (_locations s); apply (enable_loop_session s) end.
    + destruct Hinv as [Hwatch _ Hlisten Hfinish]. split; cbn.
      * by apply (watch_inv_ext st).
      * rewrite Hsingle. split; [done|]. rewrite length_app. cbn. lia.
      * done.
      * intros fb [_ Hfb]%Hfinish. congruence.
    + cbn. by rewrite Hsingle.
Qed.

Lemma start_session sslkeylogfile cont st :
  session_inv st → session_inv (start sslkeylogfile cont st).2.
Proof.
  intros Hinv. rewrite start_run. cbn zeta.
  match goal with |- context [enable ?s] =>
    assert (Hinv0 : session_inv s);
    [|pose proof (enable_session s Hinv0) as Hen;
      destruct (enable s) as [[[]|e] st1]; cbn [snd] in * ] end.
  - destruct sslkeylogfile as [path|]; [case_bool_decide|]; try done.
    by apply (session_inv_ext st).
  - destruct (cont && selected_thread st1); [|done].
    by apply (session_inv_ext st1).
  - done.
Qed.

Lemma stop_state st :
  (stop st).2 = match _keylog_file st with
                | None => set_stdout (stdout st ++ ["No active keylog session"]) st
                | Some _ => (disable st).2
                end.
Proof.
  rewrite stop_run. destruct (_keylog_file st); [|done].
  by destruct (disable st) as [[[]|e] st1].
Qed.

Lemma stop_session st : session_inv st → session_inv (stop st).2.
Proof.
  intros Hinv. rewrite stop_state. destruct (_keylog_file st).
  - by apply disable_session.
  - by apply (session_inv_ext st).
Qed.

Lemma hit_session n read_var st : session_inv st → session_inv (run_event (Hit n read_var) st).
Proof.
  intros Hinv. cbn [run_event].
  destruct (find_breakpoint n (breakpoints st)) as [b|] eqn:Hb; [|done].
  pose proof Hb as [Hin Hnum]%find_breakpoint_Some.
  destruct Hinv as [Hwatch Hsingle Hlisten Hfinish].
  assert (Hkl : _keylog_file st = Some 0%nat).
  { destruct (inv_session _ Hwatch) as [r Hr].
    - intros Hnil. rewrite Hnil in Hin. by apply elem_of_nil in Hin.
    - rewrite Hr in Hsingle. by destruct Hsingle as [-> _]. }
  set (st_c := set_breakpoints (count_hit n <$> breakpoints st) st).
  assert (Hinv_c : session_inv st_c).
  { split; cbn.
    - apply (watch_inv_fmap (count_hit n) st);
        auto using count_hit_number, count_hit_location.
    - done.
    - intros b' (b0 & -> & Hb0)%list_elem_of_fmap. rewrite count_hit_listener. auto.
    - done. }
  rewrite entry_stop_outcome. destruct read_var as [ssl|e]; [|done].
  destruct (find_breakpoint n (breakpoints st_c)) as [b_c|] eqn:Hb_c; [|done].
  pose proof Hb_c as [Hin_c _]%find_breakpoint_Some.
  destruct Hinv_c as [Hwatch_c Hsingle_c Hlisten_c Hfinish_c].
  cbn [snd]. split; cbn [breakpoints finish_breakpoints heap _keylog_file
                        set_breakpoints set_finish_breakpoints].
  - eapply (watch_inv_fmap (SKLBreakpoint.bump_ignore_count n) st_c);
      auto using bump_ignore_count_number, bump_ignore_count_location.
  - done.
  - intros b' (b0 & -> & Hb0)%list_elem_of_fmap.
    rewrite bump_ignore_count_listener. auto.
  - intros fb [Hfb| ->%list_elem_of_singleton]%elem_of_app; [by apply Hfinish|].
    cbn. split; [by apply Hlisten_c|done].
Qed.

Lemma finish_session i mem st : session_inv st → session_inv (run_event (Finish i mem) st).
Proof.
  intros Hinv. cbn [run_event].
  destruct (finish_breakpoints st !! i) as [fb|]; [|done]. cbn zeta.
  assert (Hinv1 : session_inv (SKLFinishBreakpoint.stop mem fb st).2).
  { destruct (finish_stop_state mem fb st) as [->|(r & k & cr & mk & -> & _)]; [done|].
    apply (session_inv_ext st); try done. cbn. by rewrite length_insert. }
  destruct Hinv1 as [Hwatch Hsingle Hlisten Hfinish].
  split; cbn; [by apply (watch_inv_ext (SKLFinishBreakpoint.stop mem fb st).2)|done..|].
  intros fb' Hfb'%list_elem_of_delete_inv. by apply Hfinish.
Qed.

Lemma run_event_session e st : session_inv st → session_inv (run_event e st).
Proof.
  destruct e; cbn [run_event];
    auto using start_session, stop_session, enable_session, disable_session,
               hit_session, finish_session.
  - apply hit_session.
  - apply finish_session.
Qed.

Lemma run_events_session es : ∀ st, session_inv st → session_inv (run_events es st).
Proof.
  induction es as [|e es IH]; intros st Hinv; [done|].
  cbn. by apply IH, run_event_session.
Qed.

(** Once a Keylog is open, no event clears or replaces the reference. *)
Lemma run_event_keeps_keylog e st r :
  _keylog_file st = Some r → _keylog_file (run_event e st) = Some r.
Proof.
  intros Hkl. destruct e as [o cont| | | |n read_var|i mem]; cbn [run_event].
  - rewrite start_run. cbn zeta.
    match goal with |- context [enable ?s] =>
      assert (Hkl0 : _keylog_file s = Some r)
        by (destruct o as [path|]; [case_bool_decide|]; done);
      pose proof (enable_run s) as Hen; rewrite Hkl0 in Hen;
      pose proof (enable_loop_frame (_locations s) s) as (_ & _ & _ & _ & Hkl1 & _);
      rewrite <-Hen, Hkl0 in Hkl1;
      destruct (enable s) as [[[]|e] st1]; cbn [snd] in * end; [|done].
    by destruct (cont && selected_thread st1).
  - rewrite stop_state, Hkl. by destruct (disable_frame st) as (_ & _ & _ & -> & _).
  - rewrite enable_run, Hkl.
    by destruct (enable_loop_frame (_locations st) st) as (_ & _ & _ & _ & -> & _).
  - by destruct (disable_frame st) as (_ & _ & _ & -> & _).
  - destruct (find_breakpoint n (breakpoints st)); [|done].
    rewrite entry_stop_outcome. destruct read_var; [|done].
    by destruct (find_breakpoint _ _).
  - destruct (finish_breakpoints st !! i) as [fb|]; [|done]. cbn.
    by destruct (finish_stop_state mem fb st) as [->|(? & ? & ? & ? & -> & _)].
Qed.

(** X9. One Keylog per session, and one watcher per symbol, whatever
    happens.  After any sequence of calls of [start], [stop], [enable] and
    [disable], entry hits and returns, from the initial state: every symbol
    has at most one active entry breakpoint, all of them on the five symbols;
    at most one Keylog object has been created, and [_keylog_file] refers to
    it if it is set; every entry breakpoint and every armed finish breakpoint
    listens to this Keylog; and once [_keylog_file] is set, no further event,
    [stop] included, clears or replaces it. *)
Theorem session_single_keylog (environ : gmap string string) (files : gmap string node)
    (thread : bool) (events : list event) :
  let st := run_events events (init environ files thread) in
  (∀ name, (length (watchers name st) ≤ 1)%nat) ∧
  (∀ b, b ∈ breakpoints st → location b ∈ symbols) ∧
  (length (heap st) ≤ 1)%nat ∧
  (∀ r, _keylog_file st = Some r → r = 0%nat ∧ length (heap st) = 1%nat) ∧
  (∀ b, b ∈ breakpoints st → bp_key_listener b = _keylog_file st) ∧
  (∀ fb, fb ∈ finish_breakpoints st → key_listener fb = _keylog_file st) ∧
  (∀ e r, _keylog_file st = Some r → _keylog_file (run_event e st) = Some r).
Proof.
  intros st.
  assert (Hinv : session_inv st) by apply run_events_session, session_inv_init.
  destruct Hinv as [Hwatch Hsingle Hlisten Hfinish].
  split_and!.
  - intros name. by apply watchers_at_most_one.
  - intros b Hb. rewrite <-(inv_symbols _ Hwatch).
    by apply (list_elem_of_fmap_2 fst _ _ (inv_installed _ Hwatch b Hb)).
  - destruct (_keylog_file st); [destruct Hsingle as [_ ->]|rewrite Hsingle]; lia.
  - intros r Hr. by rewrite Hr in Hsingle.
  - intros b Hb. rewrite (Hlisten b Hb).
    destruct (inv_session _ Hwatch) as [r Hr].
    + intros Hnil. rewrite Hnil in Hb. by apply elem_of_nil in Hb.
    + rewrite Hr in Hsingle |- *. by destruct Hsingle as [-> _].
  - intros fb [-> ->]%Hfinish. done.
  - intros e r. apply run_event_keeps_keylog.
Qed.

(** ** The log file of a session *)

Lemma create_on_missing filename st :
  fs st !! filename = None →
  Keylog.create filename st
  = (Return (length (heap st)),
     set_heap (heap st ++ [{| keylog_file := opened filename; written_items := ∅ |}])
       (set_fs (<[filename := append_bytes header_bytes new_file]>
                  (<[filename := new_file]> (fs st))) st)).
Proof.
  intros Hnone. rewrite create_run, open_log_run, Hnone. cbn zeta.
  unfold tell. cbn [closed opened name fs set_fs].
  by rewrite node_of_insert.
Qed.

Lemma log_inv_ext st st' :
  fs st' = fs st → heap st' = heap st → _keylog_file st' = _keylog_file st →
  log_inv st → log_inv st'.
Proof.
  unfold log_inv, file_content. by intros -> -> ->.
Qed.

Lemma log_lines_snoc entries cr mk :
  log_lines (entries ++ [(cr, mk)])
  = (log_lines entries ++ String.list_byte_of_string (keylog_line cr mk))%list.
Proof.
  unfold log_lines. rewrite fmap_app, concat_app. cbn. by rewrite app_nil_r.
Qed.

Lemma enable_log st : session_inv st → log_inv st → log_inv (enable st).2.
Proof.
  intros Hinv Hlog. rewrite enable_run.
  destruct (_keylog_file st) as [r|] eqn:Hkl.
  - destruct (enable_loop_frame (_locations st) st) as (_ & Hfs & Hheap & _ & Hkl' & _).
    by apply (log_inv_ext st).
  - unfold log_inv in Hlog. rewrite Hkl in Hlog.
    rewrite create_on_missing by (rewrite Hlog; apply lookup_empty).
    cbn zeta.
    match goal with |- context [enable_loop ?i ?s] =>
      destruct (enable_loop_frame i s) as (_ & Hfs & Hheap & _ & Hkl' & _);
      apply (log_inv_ext s); [done..|] end.
    unfold log_inv. cbn [_keylog_file set__keylog_file set_stdout set_heap set_fs].
    eexists _, []. split_and!.
    + cbn. by apply list_lookup_middle.
    + done.
    + unfold file_content. cbn. rewrite node_of_insert. cbn. by rewrite app_nil_r.
    + intros other Hother. cbn in *.
      by rewrite !lookup_insert_ne, Hlog, lookup_empty.
    + constructor.
    + done.
    + constructor.
Qed.

Lemma start_log sslkeylogfile cont st :
  session_inv st → log_inv st → log_inv (start sslkeylogfile cont st).2.
Proof.
  intros Hinv Hlog. rewrite start_run. cbn zeta.
  match goal with |- context [enable ?s] =>
    assert (session_inv s ∧ log_inv s) as [Hinv0 Hlog0];
    [|pose proof (enable_log s Hinv0 Hlog0) as Hen;
      destruct (enable s) as [[[]|e] st1]; cbn [snd] in * ] end.
  - destruct sslkeylogfile as [path|]; [case_bool_decide|]; try done.
    split; [by apply (session_inv_ext st)|by apply (log_inv_ext st)].
  - destruct (cont && selected_thread st1); [|done].
    by apply (log_inv_ext st1).
  - done.
Qed.

Lemma disable_log st : log_inv st → log_inv (disable st).2.
Proof.
  destruct (disable_frame st) as (Hfs & Hheap & _ & Hkl & _).
  by apply log_inv_ext.
Qed.

Lemma stop_log st : log_inv st → log_inv (stop st).2.
Proof.
  intros Hlog. rewrite stop_state. destruct (_keylog_file st) eqn:Hkl.
  - by apply disable_log.
  - by apply (log_inv_ext st).
Qed.

Lemma hit_log n read_var st : log_inv st → log_inv (run_event (Hit n read_var) st).
Proof.
  intros Hlog. cbn [run_event].
  destruct (find_breakpoint n (breakpoints st)); [|done].
  rewrite entry_stop_outcome. destruct read_var; [|by apply (log_inv_ext st)].
  destruct (find_breakpoint _ _); by apply (log_inv_ext st).
Qed.

Lemma finish_log i mem st :
  session_inv st → log_inv st → log_inv (run_event (Finish i mem) st).
Proof.
  intros Hinv Hlog. cbn [run_event].
  destruct (finish_breakpoints st !! i) as [fb|] eqn:Hfb; [|done]. cbn zeta.
  apply (log_inv_ext (SKLFinishBreakpoint.stop mem fb st).2); [done..|].
  destruct (finish_stop_state mem fb st)
    as [->|(r & k & cr & mk & -> & Hr & Hk & Hfresh & Hopen & Hline)]; [done|].
  destruct (s_finish _ Hinv fb) as [Hr0 Hkl]; [by eapply list_elem_of_lookup_2|].
  rewrite Hr in Hr0. injection Hr0 as ->.
  unfold log_inv in *. rewrite Hkl in Hlog.
  change (_keylog_file (logged 0 k cr mk st)) with (_keylog_file st). rewrite Hkl.
  destruct Hlog as (k0 & entries & Hk0 & _ & Hcontent & Hothers & Hnodup & Hitems & Hhex).
  rewrite Hk in Hk0. injection Hk0 as <-.
  eexists _, (entries ++ [(cr, mk)])%list. split_and!.
  - by apply logged_heap.
  - done.
  - change (file_content ?f ?s) with (log_of {| keylog_file := keylog_file k;
      written_items := {[cr]} ∪ written_items k |} s).
    rewrite (logged_log k) by done.
    change (log_of k st) with (file_content (name (keylog_file k)) st).
    by rewrite Hcontent, log_lines_snoc, <-(assoc_L (++)).
  - intros other Hother. cbn in *. rewrite lookup_insert_ne by done. by apply Hothers.
  - rewrite fmap_app, NoDup_app. split_and!; [done| |apply NoDup_singleton].
    intros cr' Hcr' ->%list_elem_of_singleton. apply Hfresh.
    rewrite Hitems. by apply elem_of_list_to_set.
  - rewrite fmap_app, list_to_set_app_L.
    change ([(cr, mk)].*1) with [cr]. rewrite list_to_set_singleton_L.
    cbn [written_items]. by rewrite Hitems, (comm_L (∪)).
  - apply Forall_app. split; [done|]. constructor; [|constructor].
    destruct (get_keylog_line_returns _ _ _ _ Hline) as (crb & mkb & -> & -> & ? & ?).
    split; eexists; eauto.
Qed.

Lemma run_events_log es : ∀ st, session_inv st → log_inv st → log_inv (run_events es st).
Proof.
  induction es as [|e es IH]; intros st Hinv Hlog; [done|].
  cbn. apply IH; [by apply run_event_session|].
  destruct e; cbn [run_event];
    auto using start_log, stop_log, enable_log, disable_log.
  - by apply hit_log.
  - by apply finish_log.
Qed.

(** X10. The key log of a session is well formed.  Over a file system that
    is empty when the script is imported, after any sequence of calls, entry
    hits and returns: as long as no Keylog is open no file exists; once one is
    open, its file is open, it is the only file, and it holds the header line
    followed by one [CLIENT_RANDOM] line per recorded fingerprint, in the
    order of logging, each with 64 and 96 hex characters and no client random
    twice; the fingerprint set is exactly the set of client randoms in the
    file. *)
Theorem session_log_well_formed (environ : gmap string string) (thread : bool)
    (events : list event) :
  let st := run_events events (init environ ∅ thread) in
  match _keylog_file st with
  | None => fs st = ∅
  | Some r =>
      ∃ k entries,
        heap st !! r = Some k ∧
        closed (keylog_file k) = false ∧
        file_content (name (keylog_file k)) st = (header_bytes ++ log_lines entries)%list ∧
        (∀ other, other ≠ name (keylog_file k) → fs st !! other = None) ∧
        NoDup entries.*1 ∧
        written_items k = list_to_set entries.*1 ∧
        Forall (λ e, hex_of_size 32 e.1 ∧ hex_of_size 48 e.2) entries
  end.
Proof.
  apply (run_events_log events (init environ ∅ thread)).
  - apply session_inv_init.
  - reflexivity.
Qed.

(** ** What [disable] leaves behind *)

Lemma disable_loop_clears items : ∀ st,
  watch_inv st →
  NoDup items.*1 →
  (∀ e, e ∈ items → e ∈ _locations st) →
  (disable_loop items st).1 = Return () ∧
  (∀ e, e ∈ items → (e.1, None) ∈ _locations (disable_loop items st).2) ∧
  (∀ e, e ∈ _locations st → e.1 ∉ items.*1 → e ∈ _locations (disable_loop items st).2).
Proof.
  induction items as [|[name [n|]] rest IH]; intros st Hinv Hnodup Hitems.
  - split_and!; [done|by intros ? ?%elem_of_nil|done].
  - rewrite fmap_cons, NoDup_cons in Hnodup. destruct Hnodup as [Hname Hnodup].
    pose proof (watch_inv_keys _ Hinv) as Hkeys.
    assert (Hhere : (name, Some n) ∈ _locations st) by (apply Hitems; by left).
    assert (Hin : name ∈ (_locations st).*1)
      by by apply (list_elem_of_fmap_2 fst _ (name, Some n)).
    destruct (inv_watched _ Hinv _ _ Hhere) as (b0 & Hb0 & Hn0 & _).
    destruct (find_breakpoint_elem_of n _ b0 Hb0 Hn0) as [b Hb].
    rewrite disable_loop_cons_Some, Hb.
    assert (Hset : ∀ e, e ∈ _locations (uninstall name n b st)
                        ↔ e = (name, None) ∨ (e ∈ _locations st ∧ e.1 ≠ name)).
    { intros e. cbn. by rewrite elem_of_dict_set. }
    destruct (IH (uninstall name n b st)) as (Hret & Hcleared & Hkept).
    { by apply uninstall_inv. }
    { done. }
    { intros e He. apply Hset. right. split; [apply Hitems; by right|].
      intros <-. destruct Hname. by apply (list_elem_of_fmap_2 fst _ e). }
    split_and!; [done| |].
    + intros e [->|He]%elem_of_cons; [|by apply Hcleared].
      apply Hkept; [apply Hset; by left|done].
    + intros e He Hnot. rewrite fmap_cons, not_elem_of_cons in Hnot.
      destruct Hnot as [Hne Hnot]. apply Hkept; [|done]. apply Hset. by right.
  - rewrite fmap_cons, NoDup_cons in Hnodup. destruct Hnodup as [Hname Hnodup].
    rewrite disable_loop_cons_None.
    destruct (IH st) as (Hret & Hcleared & Hkept); [done..| |].
    { intros e He. apply Hitems. by right. }
    split_and!; [done| |].
    + intros e [->|He]%elem_of_cons; [|by apply Hcleared].
      apply Hkept; [apply Hitems; by left|done].
    + intros e He Hnot. rewrite fmap_cons, not_elem_of_cons in Hnot.
      destruct Hnot as [Hne Hnot]. by apply Hkept.
Qed.

Lemma disable_loop_all_None items : ∀ st,
  (∀ e, e ∈ items → e.2 = None) → disable_loop items st = (Return (), st).
Proof.
  induction items as [|[name v] rest IH]; intros st Hnone; [done|].
  assert (v = None) as -> by (apply (Hnone (name, v)); by left).
  rewrite disable_loop_cons_None. apply IH. intros e He. apply Hnone. by right.
Qed.

(** [disable] under the invariant: it returns with no breakpoint left. *)
Lemma disable_clears st :
  watch_inv st →
  ∃ st',
    disable st = (Return (), st') ∧
    breakpoints st' = [] ∧
    (_locations st').*1 = symbols ∧
    (∀ e, e ∈ _locations st' → e.2 = None) ∧
    fs st' = fs st ∧
    heap st' = heap st ∧
    _keylog_file st' = _keylog_file st ∧
    finish_breakpoints st' = finish_breakpoints st ∧
    disable st' = (Return (), st').
Proof.
  intros Hinv.
  pose proof (watch_inv_keys _ Hinv) as Hkeys.
  pose proof (disable_inv st Hinv) as Hinv'.
  pose proof (watch_inv_keys _ Hinv') as Hkeys'.
  destruct (disable_frame st) as (Hfs & Hheap & _ & Hkl & Hfb & _ & _).
  assert (Hloop : disable st = disable_loop (_locations st) st) by done.
  destruct (disable_loop_clears (_locations st) st Hinv Hkeys) as (Hret & Hcleared & _);
    [done|].
  rewrite <-Hloop in *.
  destruct (disable st) as [r st'] eqn:Hst'. cbn [fst snd] in *. subst r.
  assert (Hnone : ∀ e, e ∈ _locations st' → e.2 = None).
  { intros [name v] He. cbn.
    assert (name ∈ (_locations st).*1) as ([name' v0] & Hname & He0)%list_elem_of_fmap.
    { rewrite (inv_symbols _ Hinv), <-(inv_symbols _ Hinv').
      by apply (list_elem_of_fmap_2 fst _ (name, v)). }
    cbn in Hname. subst name'.
    by apply (dict_functional _ _ _ _ Hkeys' He (Hcleared _ He0)). }
  exists st'. split_and!; try done.
  - apply elem_of_nil_inv. intros b Hb.
    by pose proof (Hnone _ (inv_installed _ Hinv' b Hb)).
  - apply Hinv'.
  - unfold disable. rewrite bind_run, gets_run. by apply disable_loop_all_None.
Qed.

(** X11. [disable()] removes every entry breakpoint and nothing else.  In any
    state reached by calls, entry hits and returns from the initial state,
    [disable()] returns normally; afterwards gdb's table holds no entry
    breakpoint and every entry of the watch set is [None]; the Keylog, its
    file, the armed finish breakpoints and the Keylog reference are
    untouched; and a second [disable()] changes nothing, not even the
    output. *)
Theorem disable_removes_all (environ : gmap string string) (files : gmap string node)
    (thread : bool) (events : list event) :
  let st := run_events events (init environ files thread) in
  ∃ st',
    disable st = (Return (), st') ∧
    breakpoints st' = [] ∧
    (_locations st').*1 = symbols ∧
    (∀ e, e ∈ _locations st' → e.2 = None) ∧
    fs st' = fs st ∧
    heap st' = heap st ∧
    _keylog_file st' = _keylog_file st ∧
    finish_breakpoints st' = finish_breakpoints st ∧
    disable st' = (Return (), st').
Proof.
  intros st. apply disable_clears.
  apply s_watch, run_events_session, session_inv_init.
Qed.

(** ** The first [enable] *)

(** X12. The first [enable()] that succeeds opens the log and watches all
    five symbols.  From the state after import, whatever the environment and
    the file system, an [enable()] that returns has created exactly one
    Keylog, on the path given by [SSLKEYLOGFILE] or else on [keys.log], has
    announced that path, and has installed one entry breakpoint for each of
    the five symbols, in their order, all listening to that Keylog. *)
Theorem first_enable_installs_five (environ : gmap string string)
    (files : gmap string node) (thread : bool) (st' : state)
    (Hret : enable (init environ files thread) = (Return (), st')) :
  let path := getenv environ "SSLKEYLOGFILE" "keys.log" in
  heap st' = [{| keylog_file := opened path; written_items := ∅ |}] ∧
  _keylog_file st' = Some 0%nat ∧
  stdout st' = ["Started logging SSL keys to " +:+ path] ∧
  location <$> breakpoints st' = symbols ∧
  number <$> breakpoints st' = [1; 2; 3; 4; 5]%nat ∧
  (∀ b, b ∈ breakpoints st' → bp_key_listener b = Some 0%nat ∧ hit_count b = 0%nat) ∧
  _locations st' = [("SSL_connect", Some 1%nat); ("SSL_do_handshake", Some 2%nat);
                    ("SSL_accept", Some 3%nat); ("SSL_read", Some 4%nat);
                    ("SSL_write", Some 5%nat)] ∧
  keylog_filename st' = path.
Proof.
  intros path. revert Hret. rewrite enable_run.
  change (_keylog_file (init environ files thread)) with (@None nat). cbn match.
  change (keylog_filename (init environ files thread)) with path.
  destruct (create_shape path (init environ files thread)) as [[e ->]|[fs' ->]];
    [by intros [=]|].
  cbn zeta.
  change (_locations (set_stdout ?a ?s)) with
    [("SSL_connect", @None nat); ("SSL_do_handshake", None); ("SSL_accept", None);
     ("SSL_read", None); ("SSL_write", None)].
  rewrite !enable_loop_cons_None. cbn [enable_loop mret M_ret].
  intros [= <-]. cbn.
  split_and!; try done.
  intros b Hb. repeat (apply elem_of_cons in Hb as [->|Hb]; [done|]).
  by apply elem_of_nil in Hb.
Qed.

Lemma first_enable_installs_five_witness :
  location <$> breakpoints (enable (init ∅ ∅ true)).2 = symbols ∧
  number <$> breakpoints (enable (init ∅ ∅ true)).2 = [1; 2; 3; 4; 5]%nat.
Proof.
  assert (Hret : enable (init ∅ ∅ true) = (Return (), (enable (init ∅ ∅ true)).2))
    by (vm_compute; reflexivity).
  destruct (first_enable_installs_five ∅ ∅ true _ Hret) as (_ & _ & _ & H1 & H2 & _).
  split; [exact H1 | exact H2].
Defined.

(** ** [start] and [stop] *)

Lemma enable_frame st :
  executed (enable st).2 = executed st ∧
  selected_thread (enable st).2 = selected_thread st.
Proof.
  rewrite enable_run. destruct (_keylog_file st).
  - by destruct (enable_loop_frame (_locations st) st) as (_ & _ & _ & _ & _ & -> & ->).
  - destruct (create_shape (keylog_filename st) st) as [[e ->]|[files ->]]; [done|].
    cbn zeta.
    match goal with |- context [enable_loop ?i ?s] =>
      by destruct (enable_loop_frame i s) as (_ & _ & _ & _ & _ & -> & ->) end.
Qed.

(** X13. [start] resumes the inferior at most once, and only after a
    successful [enable].  When [start] returns, it has passed exactly one
    [continue] to gdb if [cont] is true and a thread is selected, and none
    otherwise; when it raises, it has passed none. *)
Theorem start_continues_once (sslkeylogfile : option string) (cont : bool) (st : state) :
  match start sslkeylogfile cont st with
  | (Return _, st') =>
      executed st'
      = (executed st ++ if cont && selected_thread st then ["continue"] else [])%list
  | (Raise _, st') => executed st' = executed st
  end.
Proof.
  rewrite start_run. cbn zeta.
  match goal with |- context [enable ?s] =>
    pose proof (enable_frame s) as [Hex Hth];
    assert (He0 : executed s = executed st ∧ selected_thread s = selected_thread st)
      by (destruct sslkeylogfile as [path|]; [case_bool_decide|]; done);
    destruct He0 as [He0 Ht0]; rewrite He0 in Hex; rewrite Ht0 in Hth;
    destruct (enable s) as [[[]|e] st1]; cbn [snd] in * end; [|done].
  rewrite Hth. destruct (cont && selected_thread st); cbn; rewrite Hex; [done|].
  by rewrite app_nil_r.
Qed.

(** X14. A [start] that fails to open its explicit path still replaces the
    configured path.  With no Keylog open, if the file at the given non-empty
    path cannot be opened, [start] raises the error of [open], installs no
    breakpoint, opens no Keylog and does not resume the inferior; yet
    [keylog_filename] is now the given path, and nothing else has changed. *)
Theorem start_failure_keeps_path (st st1 : state) (path : string) (cont : bool) (e : exn)
    (Hpath : path ≠ "")
    (Hnone : _keylog_file st = None)
    (Hraise : Keylog.create path (set_keylog_filename path st) = (Raise e, st1)) :
  start (Some path) cont st = (Raise e, set_keylog_filename path st) ∧
  keylog_filename (start (Some path) cont st).2 = path ∧
  breakpoints (start (Some path) cont st).2 = breakpoints st ∧
  _locations (start (Some path) cont st).2 = _locations st ∧
  _keylog_file (start (Some path) cont st).2 = None ∧
  executed (start (Some path) cont st).2 = executed st ∧
  fs (start (Some path) cont st).2 = fs st.
Proof.
  destruct (create_raises _ _ _ _ Hraise) as [-> _].
  assert (Hstart : start (Some path) cont st = (Raise e, set_keylog_filename path st)).
  { rewrite start_run. cbn zeta. rewrite bool_decide_eq_true_2 by done.
    rewrite enable_run. cbn [_keylog_file set_keylog_filename keylog_filename].
    by rewrite Hnone, Hraise. }
  rewrite Hstart. by split_and!.
Qed.

Lemma start_failure_keeps_path_witness :
  start (Some "keys.log") true ex_denied_state
  = (Raise (OSError 13), set_keylog_filename "keys.log" ex_denied_state).
Proof.
  assert (Hraise : Keylog.create "keys.log" (set_keylog_filename "keys.log" ex_denied_state)
                   = (Raise (OSError 13), set_keylog_filename "keys.log" ex_denied_state))
    by (vm_compute; reflexivity).
  refine (proj1 (start_failure_keeps_path ex_denied_state _ "keys.log" true _
                   _ eq_refl Hraise)).
  discriminate.
Defined.

(** X15. While a Keylog is open, the path given to [start] is not opened.
    With [_keylog_file] set, [start(path)] returns normally, opens no file
    and creates no Keylog: the file system, the Keylog objects and the
    reference are as before, so logging goes on into the file already open;
    only [keylog_filename] now holds the new path. *)
Theorem start_on_open_session (st : state) (r : nat) (path : string) (cont : bool)
    (Hkl : _keylog_file st = Some r)
    (Hpath : path ≠ "") :
  ∃ st',
    start (Some path) cont st = (Return (), st') ∧
    fs st' = fs st ∧
    heap st' = heap st ∧
    _keylog_file st' = Some r ∧
    keylog_filename st' = path.
Proof.
  rewrite start_run. cbn zeta. rewrite bool_decide_eq_true_2 by done.
  rewrite enable_run. cbn [_keylog_file set_keylog_filename]. rewrite Hkl.
  match goal with |- context [enable_loop ?i ?s] =>
    destruct (enable_loop_frame i s) as (Hret & Hfs & Hheap & Hname & Hkl' & _);
    destruct (enable_loop i s) as [res st1] end.
  cbn in Hret, Hfs, Hheap, Hname, Hkl'. subst res. rewrite Hkl in Hkl'.
  destruct (cont && selected_thread st1); eexists; by split_and!.
Qed.

Lemma start_on_open_session_witness :
  ∃ st',
    start (Some "premaster.txt") true ex_state = (Return (), st') ∧
    fs st' = fs ex_state ∧
    heap st' = heap ex_state ∧
    _keylog_file st' = Some 0%nat ∧
    keylog_filename st' = "premaster.txt".
Proof.
  refine (start_on_open_session ex_state 0 "premaster.txt" true eq_refl _).
  discriminate.
Defined.

(** X16. With a Keylog open, [stop()] deletes the breakpoints and then
    fails.  In any state reached by calls, entry hits and returns from the
    initial state: if no Keylog is open, [stop()] prints its message and
    changes nothing else; if one is open, [stop()] raises [TypeError] with all
    entry breakpoints deleted and every entry of the watch set [None], while
    the Keylog reference, the Keylog objects, their files and the armed finish
    breakpoints are as before. *)
Theorem stop_outcome (environ : gmap string string) (files : gmap string node)
    (thread : bool) (events : list event) :
  let st := run_events events (init environ files thread) in
  (_keylog_file st = None →
   stop st = (Return (), set_stdout (stdout st ++ ["No active keylog session"]) st)) ∧
  (∀ r, _keylog_file st = Some r →
     ∃ st',
       stop st = (Raise TypeError, st') ∧
       breakpoints st' = [] ∧
       (∀ e, e ∈ _locations st' → e.2 = None) ∧
       _keylog_file st' = Some r ∧
       heap st' = heap st ∧
       fs st' = fs st ∧
       finish_breakpoints st' = finish_breakpoints st).
Proof.
  intros st. split.
  - intros Hnone. by rewrite stop_run, Hnone.
  - intros r Hkl.
    destruct (disable_clears st)
      as (st' & Hdis & Hbs & _ & Hnone & Hfs & Hheap & Hkl' & Hfb & _).
    { apply s_watch, run_events_session, session_inv_init. }
    exists st'. rewrite stop_run, Hkl, Hdis. rewrite Hkl in Hkl'. by split_and!.
Qed.

(** ** Fingerprints belong to one Keylog *)


